(** * Webcam surveillance system: frame buffer, motion detection, segment rotation

    A shallow embedding of [main.py]: the bounded frame buffer shared by the
    capture and the processing thread, [detect_motion], and the rotation and
    shutdown logic of [process_frames].  The two threads are modelled at the
    granularity of one loop iteration; what the outside world supplies to an
    iteration (the result of [cap.read()], the readings of
    [datetime.utcnow()], the arrival of a signal) is an explicit argument. *)

From Stdlib Require Import ZArith QArith Lia.
From stdpp Require Import base tactics option list finite vector strings pretty.

Open Scope Z_scope.

(** ** Configuration *)

Definition CAMERA_INDEX : Z := 0.
Definition FRAME_WIDTH : Z := 640.
Definition FRAME_HEIGHT : Z := 480.
Definition BUFFER_SIZE : Z := 128.
Definition VIDEO_DIR : string := "recordings".
Definition METADATA_DIR : string := "metadata".
(** [MOTION_THRESHOLD: float = 0.05]; the product
    [FRAME_WIDTH * FRAME_HEIGHT * MOTION_THRESHOLD] is exactly [15360.0] in
    binary64, so the rational value is the value Python compares with. *)
Definition MOTION_THRESHOLD : Q := 5 # 100.

(** ** [queue.Queue]

    The part of Python's [queue.Queue] the program uses.  A call either
    completes, raises, or waits on the queue's condition variable; in a
    sequential run a waiting call never wakes up. *)

Inductive exn := Empty.

Inductive outcome (A : Type) :=
| Done (a : A)
| Raised (e : exn)
| Blocked.
Arguments Done {A} a.
Arguments Raised {A} e.
Arguments Blocked {A}.

Module Queue.

Record t (A : Type) := mk { maxsize : Z; queue : list A }.
Arguments mk {A} maxsize queue.
Arguments maxsize {A} _.
Arguments queue {A} _.

Section Ops.
Context {A : Type}.
Implicit Types (q : t A) (x : A).

Definition qsize q : Z := Z.of_nat (length (queue q)).

(** [return not self._qsize()] *)
Definition empty q : bool := qsize q =? 0.

(** [return 0 < self.maxsize <= self._qsize()] *)
Definition full q : bool := (0 <? maxsize q) && (maxsize q <=? qsize q).

(** [get_nowait()]: raises [Empty] on an empty queue, else pops the left end. *)
Definition get_nowait q : outcome (A * t A) :=
  match queue q with
  | [] => Raised Empty
  | x :: rest => Done (x, mk (maxsize q) rest)
  end.

(** [get()]: waits while the queue is empty, then pops the left end. *)
Definition get q : outcome (A * t A) :=
  match queue q with
  | [] => Blocked
  | x :: rest => Done (x, mk (maxsize q) rest)
  end.

(** [put(item)]: with a positive [maxsize], waits while
    [qsize() >= maxsize]; then appends at the right end. *)
Definition put q x : outcome (t A) :=
  if (0 <? maxsize q) && (maxsize q <=? qsize q) then Blocked
  else Done (mk (maxsize q) (queue q ++ [x])).

(** The bound [put] maintains: a bounded queue never exceeds [maxsize]. *)
Definition wf q : Prop := 0 < maxsize q → qsize q ≤ maxsize q.

End Ops.
End Queue.

(** ** The capture thread's insertion, [capture_frames] lines 64-69

<<
    if frame_buffer.full():
        try:
            frame_buffer.get_nowait()  # discard oldest
        except Empty:
            pass
    frame_buffer.put(frame)
>> *)

Definition discard_if_full {A} (q : Queue.t A) : Queue.t A :=
  if Queue.full q then
    match Queue.get_nowait q with
    | Done (_, q') => q'
    | _ => q
    end
  else q.

Definition enqueue {A} (frame : A) (q : Queue.t A) : outcome (Queue.t A) :=
  Queue.put (discard_if_full q) frame.

(** A run of insertions with no removal in between; it stops at the first
    call that does not complete. *)
Fixpoint enqueue_all {A} (frames : list A) (q : Queue.t A) : outcome (Queue.t A) :=
  match frames with
  | [] => Done q
  | f :: rest =>
      match enqueue f q with
      | Done q' => enqueue_all rest q'
      | o => o
      end
  end.

(** [n] consecutive [frame_buffer.get()] calls of the processing thread:
    the frames received, in the order received. *)
Fixpoint take_n {A} (n : nat) (q : Queue.t A) : outcome (list A * Queue.t A) :=
  match n with
  | O => Done ([], q)
  | S n' =>
      match Queue.get q with
      | Done (x, q') =>
          match take_n n' q' with
          | Done (xs, q'') => Done (x :: xs, q'')
          | o => o
          end
      | Raised e => Raised e
      | Blocked => Blocked
      end
  end.

(** The last [n] elements of a list. *)
Definition last_n {A} (n : nat) (l : list A) : list A := drop (length l - n)%nat l.

(** ** [datetime] and [timedelta]

    A [datetime] is a count of microseconds from a fixed origin.  A
    [timedelta] is kept normalised the way Python keeps it: [days] of either
    sign, [0 <= seconds < 86400] and [0 <= microseconds < 1000000]. *)

Definition datetime := Z.

Record timedelta := { days : Z; seconds : Z; microseconds : Z }.

(** [timedelta(microseconds=us)]: two [divmod]s. *)
Definition timedelta_of (us : Z) : timedelta :=
  let s := us / 1000000 in
  {| days := s / 86400; seconds := s mod 86400; microseconds := us mod 1000000 |}.

(** [a - b] on two [datetime]s. *)
Definition datetime_sub (a b : datetime) : timedelta := timedelta_of (a - b).

(** [td.total_seconds()], rounded down to whole seconds. *)
Definition whole_seconds (td : timedelta) : Z := days td * 86400 + seconds td.

Definition SECOND : Z := 1000000.
Definition HOUR : Z := 3600 * SECOND.
Definition DAY : Z := 24 * HOUR.

(** ** The library services the program calls

    A grey image is the row-major sequence of its 8-bit pixels; every frame
    of one capture device has the same number of them.  Colour conversion,
    smoothing and the rendering of time stamps are taken as given. *)

Class External := {
  Frame : Type;
  pixels : nat;
  (** [cv2.cvtColor(frame, cv2.COLOR_BGR2GRAY)] *)
  cvtColor : Frame → vec Z pixels;
  (** [cv2.GaussianBlur(gray, (21, 21), 0)] *)
  GaussianBlur : vec Z pixels → vec Z pixels;
  (** [t.strftime('%Y%m%d_%H%M%S')] *)
  strftime : datetime → string;
  (** [t.isoformat()] *)
  isoformat : datetime → string
}.

Definition Gray `{External} : Type := vec Z pixels.

(** [cv2.absdiff] on 8-bit images: the absolute difference of each pair of
    pixels (it cannot leave [0..255]). *)
Definition absdiff {n} (a b : vec Z n) : vec Z n :=
  vzip_with (λ x y, Z.abs (x - y)) a b.

(** [cv2.threshold(src, thresh, maxval, cv2.THRESH_BINARY)[1]] *)
Definition threshold {n} (src : vec Z n) (thresh maxval : Z) : vec Z n :=
  vmap (λ x, if thresh <? x then maxval else 0) src.

(** [cv2.countNonZero] *)
Definition countNonZero {n} (src : vec Z n) : Z :=
  Z.of_nat (length (filter (λ x, x ≠ 0) (vec_to_list src))).

(** Python's [n > x] for an [int] and a [float]: the exact values compared. *)
Definition int_gt_float (n : Z) (x : Q) : bool := negb (Qle_bool (inject_Z n) x).

(** ** Shared state and effects *)

Record MetadataRecord := { timestamp : string; motion_detected : bool }.

(** How far a thread has got: at the head of its loop with its local
    variables, waiting on the queue, or returned. *)
Inductive thread (L : Type) :=
| Looping (l : L)
| Waiting
| Returned.
Arguments Looping {L} l.
Arguments Waiting {L}.
Arguments Returned {L}.

(** The number of pixel positions at which two images differ by more than
    [cutoff]. *)
Definition changed_pixels {n} (a b : vec Z n) (cutoff : Z) : Z :=
  Z.of_nat (length (filter (λ i : fin n, cutoff < Z.abs (a !!! i - b !!! i))
                      (enum (fin n)))).

Section Program.
Context `{External}.

Inductive effect :=
| Print (msg : string)
| CapRelease                                  (* cap.release() *)
| VideoWriter (path : string)                 (* cv2.VideoWriter(str(video_path), ...) *)
| Write (out : string) (frame : Frame)        (* out.write(frame) *)
| Release (out : string)                      (* out.release() *)
| JsonDump (path : string) (records : list MetadataRecord).
                                              (* open(path, 'w'); json.dump(records, f) *)

(** The module-level globals, and the trace of what the program has done to
    the outside world so far. *)
Record World := {
  frame_buffer : Queue.t Frame;
  shutdown_event : bool;
  previous_gray : option Gray;
  trace : list effect
}.

Definition M (A : Type) : Type := World → A * World.

Definition bind {A B} (m : M A) (f : A → M B) : M B :=
  λ w, let '(a, w') := m w in f a w'.

#[local] Instance M_ret : MRet M := λ A a w, (a, w).
#[local] Instance M_bind : MBind M := λ A B f m, bind m f.

#[local] Notation "'let*' x := m 'in' k" := (bind m (λ x, k))
  (at level 10, x name, m at level 100, k at level 200, only parsing).

Definition gets {A} (f : World → A) : M A := λ w, (f w, w).

Definition emit (e : effect) : M unit := λ w,
  (tt, {| frame_buffer := frame_buffer w; shutdown_event := shutdown_event w;
          previous_gray := previous_gray w; trace := trace w ++ [e] |}).

Definition set_frame_buffer (q : Queue.t Frame) : M unit := λ w,
  (tt, {| frame_buffer := q; shutdown_event := shutdown_event w;
          previous_gray := previous_gray w; trace := trace w |}).

Definition set_previous_gray (g : Gray) : M unit := λ w,
  (tt, {| frame_buffer := frame_buffer w; shutdown_event := shutdown_event w;
          previous_gray := Some g; trace := trace w |}).

(** [shutdown_event.set()] *)
Definition shutdown_set : M unit := λ w,
  (tt, {| frame_buffer := frame_buffer w; shutdown_event := true;
          previous_gray := previous_gray w; trace := trace w |}).

(** ** [handle_signal] *)

Definition handle_signal (sig : Z) : M unit :=
  emit (Print ("Received signal " +:+ pretty sig +:+ ", shutting down..."));;
  shutdown_set.

(** ** [capture_frames] *)

(** Up to the loop; [opened] is what [cap.isOpened()] answers. *)
Definition capture_start (opened : bool) : M (thread unit) :=
  if negb opened then
    emit (Print "ERROR: Unable to open webcam.");;
    shutdown_set;;
    mret Returned
  else mret (Looping tt).

(** One pass through [while not shutdown_event.is_set()]; [r] is what
    [cap.read()] returns when it is called: [None] for [ret = False]. *)
Definition capture_iteration (r : option Frame) : M (thread unit) :=
  let* stop := gets shutdown_event in
  if stop then
    emit CapRelease;;
    emit (Print "Capture thread terminated.");;
    mret Returned
  else
    match r with
    | None =>
        emit (Print "WARNING: Frame capture failed.");;
        mret (Looping tt)
    | Some frame =>
        let* q := gets frame_buffer in
        let q := discard_if_full q in
        match Queue.put q frame with
        | Done q' => set_frame_buffer q';; mret (Looping tt)
        | _ => set_frame_buffer q;; mret Waiting
        end
    end.

(** ** [detect_motion] *)

(** The smoothed intensity of a frame, as [detect_motion] computes it. *)
Definition filtered (frame : Frame) : Gray := GaussianBlur (cvtColor frame).

Definition detect_motion (frame : Frame) : M bool :=
  let gray := cvtColor frame in
  let gray := GaussianBlur gray in
  let* previous := gets previous_gray in
  match previous with
  | None =>
      set_previous_gray gray;;
      mret false
  | Some previous_gray =>
      let frame_delta := absdiff previous_gray gray in
      let thresh := threshold frame_delta 25 255 in
      let motion_area := countNonZero thresh in
      let motion_detected :=
        int_gt_float motion_area
          (inject_Z (FRAME_WIDTH * FRAME_HEIGHT) * MOTION_THRESHOLD) in
      set_previous_gray gray;;
      mret motion_detected
  end.

(** ** [process_frames] *)

Record Locals := {
  current_time : datetime;
  video_path : string;
  metadata_path : string;
  out : string;                       (* the open writer, named by its file *)
  metadata_list : list MetadataRecord
}.

Definition video_file (t : datetime) : string :=
  VIDEO_DIR +:+ "/" +:+ strftime t +:+ ".mp4".
Definition metadata_file (t : datetime) : string :=
  METADATA_DIR +:+ "/" +:+ strftime t +:+ ".json".

(** [(datetime.utcnow() - current_time).seconds >= 3600] *)
Definition rotation_due (now current_time : datetime) : bool :=
  3600 <=? seconds (datetime_sub now current_time).

(** Up to the loop; [now] is the reading of [datetime.utcnow()]. *)
Definition process_start (now : datetime) : M (thread Locals) :=
  let current_time := now in
  let video_path := video_file current_time in
  let metadata_path := metadata_file current_time in
  emit (VideoWriter video_path);;
  mret (Looping {| current_time := current_time; video_path := video_path;
                   metadata_path := metadata_path; out := video_path;
                   metadata_list := [] |}).

(** After the loop. *)
Definition process_finish (l : Locals) : M (thread Locals) :=
  emit (JsonDump (metadata_path l) (metadata_list l));;
  emit (Release (out l));;
  emit (Print "Processing thread terminated.");;
  mret Returned.

(** One pass through [while not shutdown_event.is_set()], or the exit from
    it.  The three readings of [datetime.utcnow()] a pass can take are
    arguments: [t_frame] for the record's time stamp, [t_check] for the
    rotation test, [t_new] for the start of a new segment. *)
Definition process_iteration (t_frame t_check t_new : datetime) (l : Locals)
  : M (thread Locals) :=
  let* stop := gets shutdown_event in
  if stop then process_finish l
  else
    let* q := gets frame_buffer in
    if Queue.empty q then mret (Looping l)
    else
      match Queue.get q with
      | Done (frame, q') =>
          set_frame_buffer q';;
          let timestamp := isoformat t_frame in
          let* motion_detected := detect_motion frame in
          emit (Write (out l) frame);;
          let metadata_list :=
            metadata_list l ++
              [{| timestamp := timestamp; motion_detected := motion_detected |}] in
          if rotation_due t_check (current_time l) then
            emit (JsonDump (metadata_path l) metadata_list);;
            let current_time := t_new in
            let video_path := video_file current_time in
            let metadata_path := metadata_file current_time in
            emit (Release (out l));;
            emit (VideoWriter video_path);;
            mret (Looping {| current_time := current_time; video_path := video_path;
                             metadata_path := metadata_path; out := video_path;
                             metadata_list := [] |})
          else
            mret (Looping {| current_time := current_time l;
                             video_path := video_path l;
                             metadata_path := metadata_path l; out := out l;
                             metadata_list := metadata_list |})
      | _ => mret Waiting
      end.

(** ** The running system

    [main] starts the two threads and waits.  A run is a sequence of events,
    each carrying what the outside world supplies to it. *)

Inductive event :=
| Signal (sig : Z)
    (* SIGINT or SIGTERM is delivered *)
| Capture (r : option Frame)
    (* the capture thread makes one pass; [cap.read()] would return [r] *)
| Process (t_frame t_check t_new : datetime).
    (* the processing thread makes one pass, with these clock readings *)

Record System := {
  world : World;
  capture : thread unit;
  processing : thread Locals
}.

Definition step (e : event) (s : System) : System :=
  match e with
  | Signal sig =>
      let '(_, w) := handle_signal sig (world s) in
      {| world := w; capture := capture s; processing := processing s |}
  | Capture r =>
      match capture s with
      | Looping _ =>
          let '(c, w) := capture_iteration r (world s) in
          {| world := w; capture := c; processing := processing s |}
      | _ => s
      end
  | Process t_frame t_check t_new =>
      match processing s with
      | Looping l =>
          let '(p, w) := process_iteration t_frame t_check t_new l (world s) in
          {| world := w; capture := capture s; processing := p |}
      | _ => s
      end
  end.

Definition run (events : list event) (s : System) : System :=
  foldl (λ s e, step e s) s events.

(** The state once both threads have reached their loops: [opened] is the
    answer of [cap.isOpened()], [now] the first reading of the clock. *)
Definition boot (opened : bool) (now : datetime) : System :=
  let w0 := {| frame_buffer := Queue.mk BUFFER_SIZE []; shutdown_event := false;
               previous_gray := None; trace := [] |} in
  let '(c, w1) := capture_start opened w0 in
  let '(p, w2) := process_start now w1 in
  {| world := w2; capture := c; processing := p |}.

(** *** Reading a trace *)

Definition is_dump (e : effect) : option (string * list MetadataRecord) :=
  match e with JsonDump path records => Some (path, records) | _ => None end.

(** The metadata files written, in the order written. *)
Definition dumps (tr : list effect) : list (string * list MetadataRecord) :=
  omap is_dump tr.

(** What has happened since the writer of the active segment was opened:
    the part of the trace after the last [VideoWriter]. *)
Definition active (tr : list effect) : list effect :=
  foldl (λ acc e, match e with VideoWriter _ => [] | _ => acc ++ [e] end) [] tr.

(** The writer opened last. *)
Definition opened (tr : list effect) : option string :=
  foldl (λ o e, match e with VideoWriter path => Some path | _ => o end) None tr.

(** The frames handed to [out.write] in a stretch of trace. *)
Definition written (tr : list effect) : list Frame :=
  omap (λ e, match e with Write _ f => Some f | _ => None end) tr.

(** Classifying a sequence of frames, one call after the other. *)
Fixpoint classify_all (frames : list Frame) : M (list bool) :=
  match frames with
  | [] => mret []
  | frame :: rest =>
      let* b := detect_motion frame in
      let* bs := classify_all rest in
      mret (b :: bs)
  end.

(** [motion_area > FRAME_WIDTH * FRAME_HEIGHT * MOTION_THRESHOLD] for the
    smoothed images [a] (earlier) and [b] (later). *)
Definition motion_between (a b : Gray) : bool :=
  int_gt_float (countNonZero (threshold (absdiff a b) 25 255))
    (inject_Z (FRAME_WIDTH * FRAME_HEIGHT) * MOTION_THRESHOLD).

(** *** Auxiliary notions for the statements below *)

(** What a failed read prints. *)
Definition WARNING : effect := Print "WARNING: Frame capture failed.".

(** The record a pass appends for the frame it takes. *)
Definition record_of (t_frame : datetime) (w : World) (frame : Frame) : MetadataRecord :=
  {| timestamp := isoformat t_frame;
     motion_detected := fst (detect_motion frame w) |}.

(** The passes of the processing thread with the given clock readings. *)
Definition passes (readings : list (datetime * datetime * datetime)) : list event :=
  (λ t, Process t.1.1 t.1.2 t.2) <$> readings.

(** Effects that leave the video writer and the metadata files alone. *)
Definition quiet (e : effect) : Prop :=
  match e with Print _ | CapRelease => True | _ => False end.

(** The active segment is in step with the local variables [l]: its writer
    is [out l], its metadata file has not been written, and [metadata_list]
    holds one record for each frame written to it. *)
Definition segment_ok (tr : list effect) (l : Locals) : Prop :=
  opened tr = Some (out l)
  ∧ dumps (active tr) = []
  ∧ length (metadata_list l) = length (written (active tr)).

(** What holds in every state the system can reach. *)
Definition invariant (s : System) : Prop :=
  Queue.wf (frame_buffer (world s))
  ∧ capture s ≠ Waiting
  ∧ match processing s with
    | Looping l => segment_ok (trace (world s)) l
    | Waiting => False
    | Returned => True
    end.

End Program.

(** ** A simulated environment

    Stand-ins for the camera, the image filters and the clock's rendering,
    for running the program on concrete schedules: a frame is named by a
    number, shown as a uniform four-pixel image of that brightness, and time
    stamps are printed as counts. *)

Module Sim.

#[export] Instance external : External := {|
  Frame := Z;
  pixels := 4;
  cvtColor := λ b, vreplicate 4 b;
  GaussianBlur := λ g, g;
  strftime := λ t, pretty (t / SECOND);
  isoformat := λ t, pretty t
|}.

Definition F : Type := @Frame external.

(** The segment starts at time 0; frames 1, 2, 3 are captured and processed
    at 0, 0.5 and 1.2 hours. *)
Definition three_frames : list event :=
  let t1 := 0 in
  let t2 := HOUR / 2 in
  let t3 := 12 * HOUR / 10 in
  [ Capture (Some 1); Process t1 t1 t1;
    Capture (Some 2); Process t2 t2 t2;
    Capture (Some 3); Process t3 t3 t3 ].

(** SIGINT arrives, and the processing thread makes its next pass at [t]. *)
Definition interrupt (t : datetime) : list event := [ Signal 2; Process t t t ].

(** A frame processed one day and ten seconds after the segment began. *)
Definition late_frame : list event :=
  let t := DAY + 10 * SECOND in
  [ Capture (Some 1); Process t t t ].

(** Both threads in their loops, the first segment begun at time 0. *)
Definition start : System := boot true 0.

(** The number of records in each metadata file written, in order. *)
Definition records_per_file (s : System) : list nat :=
  (λ d, length (snd d)) <$> dumps (trace (world s)).

End Sim.

(** ** Bookkeeping on runs and traces *)

Section Bookkeeping.
Context `{External}.

(** A world that differs from [w] in one component. *)
Definition logged (evs : list effect) (w : World) : World :=
  {| frame_buffer := frame_buffer w; shutdown_event := shutdown_event w;
     previous_gray := previous_gray w; trace := trace w ++ evs |}.

Definition with_buffer (q : Queue.t Frame) (w : World) : World :=
  {| frame_buffer := q; shutdown_event := shutdown_event w;
     previous_gray := previous_gray w; trace := trace w |}.

Definition with_baseline (g : Gray) (w : World) : World :=
  {| frame_buffer := frame_buffer w; shutdown_event := shutdown_event w;
     previous_gray := Some g; trace := trace w |}.

Definition cancelled (w : World) : World :=
  {| frame_buffer := frame_buffer w; shutdown_event := true;
     previous_gray := previous_gray w; trace := trace w |}.

(** The local variables of [process_frames] after one more record. *)
Definition appended (r : MetadataRecord) (l : Locals) : Locals :=
  {| current_time := current_time l; video_path := video_path l;
     metadata_path := metadata_path l; out := out l;
     metadata_list := metadata_list l ++ [r] |}.

(** The local variables of [process_frames] for a segment begun at [t]. *)
Definition segment_at (t : datetime) : Locals :=
  {| current_time := t; video_path := video_file t;
     metadata_path := metadata_file t; out := video_file t;
     metadata_list := [] |}.

(** What [handle_signal] prints. *)
Definition signal_message (sig : Z) : effect :=
  Print ("Received signal " +:+ pretty sig +:+ ", shutting down...").

(** The buffer after lines 64-69 have inserted [frame]. *)
Definition pushed (frame : Frame) (q : Queue.t Frame) : Queue.t Frame :=
  Queue.mk (Queue.maxsize q)
    ((if Queue.full q then tail (Queue.queue q) else Queue.queue q) ++ [frame]).

(** The frames the camera had to offer in a run, in order. *)
Definition offered (events : list event) : list Frame :=
  omap (λ e, match e with Capture (Some frame) => Some frame | _ => None end) events.

(** The processing thread keeping pace with the camera: each frame is
    captured and then processed, with the given clock readings, before the
    next one arrives. *)
Definition lockstep (steps : list (Frame * (datetime * datetime * datetime)))
  : list event :=
  flat_map (λ x, [Capture (Some x.1); Process x.2.1.1 x.2.1.2 x.2.2]) steps.

(** The camera delivering frames while the processing thread does not
    run. *)
Definition burst (frames : list Frame) : list event :=
  (λ frame, Capture (Some frame)) <$> frames.

(** All records written to metadata files, in the order written. *)
Definition records_dumped (tr : list effect) : list MetadataRecord :=
  concat (snd <$> dumps tr).

(** Checking a trace against the discipline of one writer at a time.  The
    ledger holds the writer that is open, the number of frames written to it,
    and whether its segment's metadata has been written. *)
Record ledger := {
  open_writer : option string;
  frames_written : nat;
  metadata_dumped : bool
}.

Definition audit_step (st : ledger) (e : effect) : option ledger :=
  match e with
  | VideoWriter path =>
      (* only when no writer is open *)
      match open_writer st with
      | None => Some {| open_writer := Some path; frames_written := 0;
                        metadata_dumped := false |}
      | Some _ => None
      end
  | Write o _ =>
      (* only to the open writer, before its metadata is dumped *)
      if decide (open_writer st = Some o) then
        if metadata_dumped st then None
        else Some {| open_writer := open_writer st;
                     frames_written := S (frames_written st);
                     metadata_dumped := false |}
      else None
  | JsonDump _ records =>
      (* once per segment, while its writer is open, one record per frame *)
      match open_writer st with
      | Some _ =>
          if metadata_dumped st then None
          else if decide (length records = frames_written st) then
            Some {| open_writer := open_writer st;
                    frames_written := frames_written st;
                    metadata_dumped := true |}
          else None
      | None => None
      end
  | Release o =>
      (* only the open writer, after its metadata is dumped *)
      if decide (open_writer st = Some o) then
        if metadata_dumped st then
          Some {| open_writer := None; frames_written := frames_written st;
                  metadata_dumped := true |}
        else None
      else None
  | Print _ | CapRelease => Some st
  end.

Definition audit (tr : list effect) : option ledger :=
  foldl (λ o e, o ≫= λ st, audit_step st e)
    (Some {| open_writer := None; frames_written := 0; metadata_dumped := true |})
    tr.

(** ** [main]

    [main] prints, starts the two threads, waits for [shutdown_event], joins
    the threads and prints again.  A pass of [main] is one attempt to get
    past the call it is at. *)

Inductive main_status :=
| AwaitShutdown     (* in [while not shutdown_event.is_set()] *)
| JoinCapture       (* at [capture_thread.join()] *)
| JoinProcess       (* at [process_thread.join()] *)
| Exited.

Record Program := { system : System; main_thread : main_status }.

Definition STARTING : effect := Print "Starting webcam surveillance system...".
Definition COMPLETE : effect := Print "System shutdown complete.".

Definition in_world (f : World → World) (s : System) : System :=
  {| world := f (world s); capture := capture s; processing := processing s |}.

(** [keyboard_interrupt] tells whether [shutdown_event.wait(timeout=1.0)]
    raises [KeyboardInterrupt] in this pass. *)
Definition main_pass (keyboard_interrupt : bool) (p : Program) : Program :=
  let s := system p in
  match main_thread p with
  | AwaitShutdown =>
      if shutdown_event (world s) then {| system := s; main_thread := JoinCapture |}
      else if keyboard_interrupt then
        {| system := in_world cancelled s; main_thread := AwaitShutdown |}
      else p
  | JoinCapture =>
      match capture s with
      | Returned => {| system := s; main_thread := JoinProcess |}
      | _ => p
      end
  | JoinProcess =>
      match processing s with
      | Returned =>
          {| system := in_world (logged [COMPLETE]) s; main_thread := Exited |}
      | _ => p
      end
  | Exited => p
  end.

Inductive program_event :=
| Worker (e : event)
| Main (keyboard_interrupt : bool).

Definition program_step (e : program_event) (p : Program) : Program :=
  match e with
  | Worker e => {| system := step e (system p); main_thread := main_thread p |}
  | Main keyboard_interrupt => main_pass keyboard_interrupt p
  end.

Definition run_program (events : list program_event) (p : Program) : Program :=
  foldl (λ p e, program_step e p) p events.

(** [main] up to its loop, with both threads at theirs. *)
Definition launch (opened : bool) (now : datetime) : Program :=
  let s := boot opened now in
  {| system :=
       {| world :=
            {| frame_buffer := frame_buffer (world s);
               shutdown_event := shutdown_event (world s);
               previous_gray := previous_gray (world s);
               trace := STARTING :: trace (world s) |};
          capture := capture s; processing := processing s |};
     main_thread := AwaitShutdown |}.

(** A notice printed by [handle_signal]. *)
Definition is_signal_notice (e : effect) : Prop := ∃ sig, e = signal_message sig.

(** How far [main] has got, against the state of the threads and the trace. *)
Definition main_ok (p : Program) : Prop :=
  invariant (system p)
  ∧ match main_thread p with
    | AwaitShutdown => COMPLETE ∉ trace (world (system p))
    | JoinCapture =>
        shutdown_event (world (system p)) = true
        ∧ COMPLETE ∉ trace (world (system p))
    | JoinProcess =>
        shutdown_event (world (system p)) = true
        ∧ capture (system p) = Returned
        ∧ COMPLETE ∉ trace (world (system p))
    | Exited =>
        shutdown_event (world (system p)) = true
        ∧ capture (system p) = Returned
        ∧ processing (system p) = Returned
        ∧ ∃ pre post,
            trace (world (system p)) = pre ++ COMPLETE :: post
            ∧ (COMPLETE ∉ pre)
            ∧ Forall is_signal_notice post
    end.

End Bookkeeping.

(** ** The threshold read as a fraction of the frame at hand

    [threshold_fraction] times the area of the frame itself, the number of
    its pixels, is exceeded by the changed pixels. *)
Definition fraction_of_frame_exceeded {n} (a b : vec Z n) : Prop :=
  (inject_Z (Z.of_nat n) * MOTION_THRESHOLD < inject_Z (changed_pixels a b 25))%Q.

(** ** A simulated camera of the configured size

    As [Sim], with uniform frames of [FRAME_WIDTH * FRAME_HEIGHT] pixels. *)

Module Vga.

#[export] Instance external : External := {|
  Frame := Z;
  pixels := Z.to_nat (FRAME_WIDTH * FRAME_HEIGHT);
  cvtColor := λ b, vreplicate (Z.to_nat (FRAME_WIDTH * FRAME_HEIGHT)) b;
  GaussianBlur := λ g, g;
  strftime := λ t, pretty (t / SECOND);
  isoformat := λ t, pretty t
|}.

Definition F : Type := @Frame external.

(** The globals before the first frame. *)
Definition fresh : World :=
  {| frame_buffer := Queue.mk BUFFER_SIZE []; shutdown_event := false;
     previous_gray := None; trace := [] |}.

End Vga.

(** ** The threads at a finer grain

    [boot] and [step] take the start of both threads as one piece and make a
    signal wait for the end of a pass.  Here each thread starts on its own,
    in any order, and a signal can arrive while passes are under way: such
    passes tested [shutdown_event] before it was set and run to their end,
    and the notice of [handle_signal] is printed somewhere among what they
    print. *)

Section Finer.
Context `{External}.

Record Fine := {
  fine_world : World;
  fine_capture : option (thread unit);       (* [None]: not started yet *)
  fine_processing : option (thread Locals)
}.

Inductive action :=
| Start_capture (opened : bool)
    (* [capture_frames] up to its loop; [cap.isOpened()] answers [opened] *)
| Start_process (now : datetime)
    (* [process_frames] up to its loop; the clock reads [now] *)
| Capture_pass (r : option Frame)
| Process_pass (t_frame t_check t_new : datetime).

Definition act (a : action) (f : Fine) : Fine :=
  match a with
  | Start_capture opened =>
      match fine_capture f with
      | None =>
          let '(c, w) := capture_start opened (fine_world f) in
          {| fine_world := w; fine_capture := Some c;
             fine_processing := fine_processing f |}
      | Some _ => f
      end
  | Start_process now =>
      match fine_processing f with
      | None =>
          let '(p, w) := process_start now (fine_world f) in
          {| fine_world := w; fine_capture := fine_capture f;
             fine_processing := Some p |}
      | Some _ => f
      end
  | Capture_pass r =>
      match fine_capture f with
      | Some (Looping _) =>
          let '(c, w) := capture_iteration r (fine_world f) in
          {| fine_world := w; fine_capture := Some c;
             fine_processing := fine_processing f |}
      | _ => f
      end
  | Process_pass t_frame t_check t_new =>
      match fine_processing f with
      | Some (Looping l) =>
          let '(p, w) := process_iteration t_frame t_check t_new l (fine_world f) in
          {| fine_world := w; fine_capture := fine_capture f;
             fine_processing := Some p |}
      | _ => f
      end
  end.

Definition acts (l : list action) (f : Fine) : Fine := foldl (λ f a, act a f) f l.

Inductive fine_event :=
| Act (a : action)
| Signalled (sig : Z) (under_way : list action) (k : nat).
    (* [handle_signal] runs while the actions [under_way] do; its notice
       comes after the first [k] effects of theirs *)

Definition fine_step (e : fine_event) (f : Fine) : Fine :=
  match e with
  | Act a => act a f
  | Signalled sig under_way k =>
      let f' := acts under_way f in
      let n := (length (trace (fine_world f)) + k)%nat in
      {| fine_world :=
           {| frame_buffer := frame_buffer (fine_world f');
              shutdown_event := true;
              previous_gray := previous_gray (fine_world f');
              trace := take n (trace (fine_world f'))
                       ++ [signal_message sig]
                       ++ drop n (trace (fine_world f')) |};
         fine_capture := fine_capture f';
         fine_processing := fine_processing f' |}
  end.

Definition fine_run (events : list fine_event) (f : Fine) : Fine :=
  foldl (λ f e, fine_step e f) f events.

(** Before either thread has started. *)
Definition power_on : Fine :=
  {| fine_world := {| frame_buffer := Queue.mk BUFFER_SIZE [];
                      shutdown_event := false;
                      previous_gray := None; trace := [] |};
     fine_capture := None; fine_processing := None |}.

(** The actions of a run, those under way at a signal included. *)
Definition actions_of (events : list fine_event) : list action :=
  events ≫= λ e, match e with Act a => [a] | Signalled _ under_way _ => under_way end.

(** What holds in every run in which the camera cannot be opened. *)
Definition camera_absent_ok (f : Fine) : Prop :=
  Queue.queue (frame_buffer (fine_world f)) = []
  ∧ written (trace (fine_world f)) = []
  ∧ (fine_capture f = None
     ∨ (fine_capture f = Some Returned ∧ shutdown_event (fine_world f) = true))
  ∧ match fine_processing f with
    | None => dumps (trace (fine_world f)) = []
    | Some (Looping l) =>
        dumps (trace (fine_world f)) = [] ∧ ∃ now, l = segment_at now
    | Some Returned =>
        ∃ now, dumps (trace (fine_world f)) = [(metadata_file now, [])]
    | Some Waiting => False
    end.

End Finer.

(** * Properties *)

(** ** The frame buffer *)

Section Buffer.
Context {A : Type}.
Implicit Types (q : Queue.t A) (l frames : list A).

Lemma last_n_all n l : (length l ≤ n)%nat → last_n n l = l.
Proof.
  intros Hle. unfold last_n.
  replace (length l - n)%nat with 0%nat by lia. done.
Qed.

Lemma length_last_n n l : length (last_n n l) = (length l `min` n)%nat.
Proof. unfold last_n. rewrite length_drop. lia. Qed.

Lemma last_n_app_last_n n l l' : last_n n (last_n n l ++ l') = last_n n (l ++ l').
Proof.
  destruct (decide (length l ≤ n)%nat) as [Hle|Hgt].
  - by rewrite (last_n_all n l).
  - unfold last_n at 1 3. rewrite !length_app, length_last_n.
    replace (length l `min` n + length l' - n)%nat with (length l')%nat by lia.
    unfold last_n. rewrite <- drop_app_le by lia. rewrite drop_drop.
    f_equal. lia.
Qed.

Lemma wf_qsize q : Queue.wf q → 0 < Queue.maxsize q →
  (length (Queue.queue q) ≤ Z.to_nat (Queue.maxsize q))%nat.
Proof. unfold Queue.wf, Queue.qsize. lia. Qed.

(** What one insertion does to a buffer within its bound. *)
Lemma enqueue_done q x :
  Queue.wf q →
  enqueue x q =
    Done (Queue.mk (Queue.maxsize q)
            ((if Queue.full q then tail (Queue.queue q) else Queue.queue q) ++ [x])).
Proof.
  intros Hwf. unfold enqueue, discard_if_full, Queue.put, Queue.get_nowait.
  destruct (Queue.full q) eqn:Hfull.
  - unfold Queue.full in Hfull. apply andb_true_iff in Hfull as [Hpos Hge].
    apply Z.ltb_lt in Hpos. apply Z.leb_le in Hge.
    pose proof (Hwf Hpos) as Hle. unfold Queue.qsize in *.
    destruct q as [m [|y rest]]; simpl in *; [lia|].
    destruct (m <=? Z.of_nat (length rest)) eqn:E; [apply Z.leb_le in E; lia|].
    by rewrite andb_false_r.
  - unfold Queue.full in *. by rewrite Hfull.
Qed.

Lemma enqueue_last_n q x :
  Queue.wf q → 0 < Queue.maxsize q →
  enqueue x q =
    Done (Queue.mk (Queue.maxsize q)
            (last_n (Z.to_nat (Queue.maxsize q)) (Queue.queue q ++ [x]))).
Proof.
  intros Hwf Hpos. rewrite enqueue_done by done. do 2 f_equal.
  pose proof (wf_qsize q Hwf Hpos) as Hle.
  destruct (Queue.full q) eqn:Hfull; unfold Queue.full, Queue.qsize in Hfull.
  - apply andb_true_iff in Hfull as [_ Hge]. apply Z.leb_le in Hge.
    destruct (Queue.queue q) as [|y rest] eqn:Hq; simpl in *; [lia|].
    unfold last_n. simpl. rewrite length_app. simpl.
    replace (S (length rest + 1) - Z.to_nat (Queue.maxsize q))%nat with 1%nat by lia.
    done.
  - apply andb_false_iff in Hfull as [Hf|Hf]; [apply Z.ltb_ge in Hf; lia|].
    apply Z.leb_gt in Hf. rewrite last_n_all; [done|].
    rewrite length_app. simpl. lia.
Qed.

Lemma enqueue_wf q x q' : Queue.wf q → enqueue x q = Done q' → Queue.wf q'.
Proof.
  intros Hwf. rewrite enqueue_done by done. intros [= <-].
  unfold Queue.wf, Queue.qsize. simpl. intros Hpos. specialize (Hwf Hpos).
  rewrite length_app. simpl.
  destruct (Queue.full q) eqn:Hfull; unfold Queue.full, Queue.qsize in *.
  - destruct (Queue.queue q); simpl in *; lia.
  - apply andb_false_iff in Hfull as [Hf|Hf]; [apply Z.ltb_ge in Hf|apply Z.leb_gt in Hf]; lia.
Qed.

Lemma enqueue_all_last_n frames q :
  Queue.wf q → 0 < Queue.maxsize q →
  enqueue_all frames q =
    Done (Queue.mk (Queue.maxsize q)
            (last_n (Z.to_nat (Queue.maxsize q)) (Queue.queue q ++ frames))).
Proof.
  revert q. induction frames as [|f frames IH]; intros q Hwf Hpos; simpl.
  - rewrite app_nil_r, last_n_all by by apply wf_qsize. by destruct q.
  - pose proof (enqueue_wf q f) as Hwf'. rewrite enqueue_last_n in * by done.
    rewrite IH; simpl; [|by eapply Hwf'|done].
    by rewrite last_n_app_last_n, <- app_assoc.
Qed.

Lemma take_n_all q :
  take_n (length (Queue.queue q)) q = Done (Queue.queue q, Queue.mk (Queue.maxsize q) []).
Proof.
  destruct q as [m l]. simpl. induction l as [|x l IH]; simpl; [done|].
  unfold Queue.get. simpl. by rewrite IH.
Qed.

Lemma take_n_prefix n q :
  (n ≤ length (Queue.queue q))%nat →
  take_n n q = Done (take n (Queue.queue q), Queue.mk (Queue.maxsize q) (drop n (Queue.queue q))).
Proof.
  destruct q as [m l]. simpl. revert l.
  induction n as [|n IH]; intros l Hn; simpl; [done|].
  destruct l as [|x l]; simpl in *; [lia|].
  unfold Queue.get. simpl. rewrite IH by lia. done.
Qed.

End Buffer.

(** C1. Insertions beyond the capacity keep the buffer within its capacity
    after every one of them; what is left is the most recent [maxsize] frames
    in the order they were put (all of them recent frames once at least
    [maxsize] were put); taking them out returns them in that order, each
    once.  With capacity 3 and frames 1..5 the buffer holds 3, 4, 5. *)
Theorem buffer_keeps_most_recent {A} (q0 : Queue.t A) (frames : list A) :
  0 < Queue.maxsize q0 → Queue.wf q0 →
  (∀ k, ∃ q, enqueue_all (take k frames) q0 = Done q
           ∧ Queue.qsize q ≤ Queue.maxsize q0)
  ∧ ∃ q, enqueue_all frames q0 = Done q
       ∧ Queue.maxsize q = Queue.maxsize q0
       ∧ Queue.queue q
         = last_n (Z.to_nat (Queue.maxsize q0)) (Queue.queue q0 ++ frames)
       ∧ (Queue.maxsize q0 ≤ Z.of_nat (length frames) →
          Queue.queue q = last_n (Z.to_nat (Queue.maxsize q0)) frames
          ∧ Queue.qsize q = Queue.maxsize q0)
       ∧ take_n (length (Queue.queue q)) q
         = Done (Queue.queue q, Queue.mk (Queue.maxsize q0) [])
       ∧ (∀ n, (n ≤ length (Queue.queue q))%nat →
            ∃ q', take_n n q = Done (take n (Queue.queue q), q'))
       ∧ enqueue_all [1; 2; 3; 4; 5] (Queue.mk 3 [])
         = Done (Queue.mk 3 [3; 4; 5]).
Proof.
  intros Hpos Hwf. split.
  - intros k. rewrite enqueue_all_last_n by done. eexists. split; [done|].
    unfold Queue.qsize. simpl. rewrite length_last_n. lia.
  - rewrite enqueue_all_last_n by done. eexists. split; [done|]. simpl.
    split; [done|]. split; [done|]. split; [|split; [|split; [|done]]].
    + intros Hlen. pose proof (wf_qsize q0 Hwf Hpos). split.
      * unfold last_n. rewrite length_app.
        replace (length (Queue.queue q0) + length frames
                 - Z.to_nat (Queue.maxsize q0))%nat
          with (length (Queue.queue q0)
                + (length frames - Z.to_nat (Queue.maxsize q0)))%nat by lia.
        by rewrite drop_app_add.
      * unfold Queue.qsize. simpl. rewrite length_last_n, length_app. lia.
    + apply (take_n_all (Queue.mk _ _)).
    + intros n Hn. rewrite (take_n_prefix n (Queue.mk _ _)) by done. by eexists.
Qed.

Lemma buffer_keeps_most_recent_witness :
  ∃ q, enqueue_all [1; 2; 3; 4; 5] (Queue.mk 3 []) = Done q
     ∧ Queue.queue q = [3; 4; 5].
Proof.
  destruct (buffer_keeps_most_recent (Queue.mk 3 []) [1; 2; 3; 4; 5])
    as [_ (q & Hq & _ & Hl & _)].
  - simpl. lia.
  - unfold Queue.wf, Queue.qsize. simpl. lia.
  - exists q. split; [exact Hq|exact Hl].
Defined.

(** ** Motion detection *)

Lemma length_filter_fmap {A B} (f : A → B) (P : B → Prop)
    `{!∀ y, Decision (P y)} (l : list A) :
  length (filter P (f <$> l)) = length (filter (λ x, P (f x)) l).
Proof.
  induction l as [|x l IH]; [done|]. rewrite fmap_cons, !filter_cons.
  destruct (decide (P (f x))); simpl; by rewrite IH.
Qed.

(** Counting the elements of an image that satisfy [P] is counting the
    positions whose pixel satisfies [P]. *)
Lemma count_by_position {n} (P : Z → Prop) `{!∀ x, Decision (P x)} (v : vec Z n) :
  length (filter P (vec_to_list v))
  = length (filter (λ i : fin n, P (v !!! i)) (enum (fin n))).
Proof.
  induction v as [|x n v IH]; [done|].
  change (enum (fin (S n))) with (0%fin :: (FS <$> enum (fin n))).
  rewrite vec_to_list_cons, !filter_cons. simpl.
  destruct (decide (P x)); simpl; rewrite length_filter_fmap; simpl; by rewrite IH.
Qed.

Lemma countNonZero_changed {n} (a b : vec Z n) :
  countNonZero (threshold (absdiff a b) 25 255) = changed_pixels a b 25.
Proof.
  unfold countNonZero, changed_pixels. f_equal.
  rewrite (count_by_position (λ x, x ≠ 0)).
  apply (f_equal length), list_filter_iff. intros i.
  unfold threshold, absdiff. rewrite vlookup_map, vlookup_zip_with.
  destruct (25 <? Z.abs (a !!! i - b !!! i)) eqn:E.
  - apply Z.ltb_lt in E. split; [done|lia].
  - apply Z.ltb_ge in E. split; [done|lia].
Qed.

Lemma changed_pixels_same {n} (a : vec Z n) : changed_pixels a a 25 = 0.
Proof.
  unfold changed_pixels. generalize (enum (fin n)). intros l.
  induction l as [|i l IH]; [done|].
  rewrite filter_cons_False; [done|]. rewrite Z.sub_diag. simpl. lia.
Qed.

Lemma changed_pixels_all {n} (a b : vec Z n) cutoff :
  (∀ i, cutoff < Z.abs (a !!! i - b !!! i)) → changed_pixels a b cutoff = Z.of_nat n.
Proof.
  intros Hall. unfold changed_pixels. f_equal.
  transitivity (length (enum (fin n))); [|apply fin_card].
  generalize (enum (fin n)). intros l.
  induction l as [|i l IH]; [done|].
  rewrite filter_cons_True by apply Hall. simpl. by rewrite IH.
Qed.

Lemma int_gt_float_iff n x : int_gt_float n x = true ↔ (x < inject_Z n)%Q.
Proof.
  unfold int_gt_float. rewrite negb_true_iff, <- not_true_iff_false, Qle_bool_iff.
  split; [apply Qnot_le_lt|apply Qlt_not_le].
Qed.

(** The threshold [FRAME_WIDTH * FRAME_HEIGHT * MOTION_THRESHOLD] is 15360. *)
Lemma motion_threshold_value n :
  (inject_Z (FRAME_WIDTH * FRAME_HEIGHT) * MOTION_THRESHOLD < inject_Z n)%Q ↔ 15360 < n.
Proof.
  unfold Qlt, inject_Z, Qmult, MOTION_THRESHOLD, FRAME_WIDTH, FRAME_HEIGHT. simpl. lia.
Qed.

Section Motion.
Context `{External}.
Implicit Types (w : World) (frame : Frame).

Lemma detect_motion_first w frame :
  previous_gray w = None →
  detect_motion frame w
  = (false, {| frame_buffer := frame_buffer w; shutdown_event := shutdown_event w;
               previous_gray := Some (filtered frame); trace := trace w |}).
Proof. intros Hp. unfold detect_motion, bind, gets. simpl. by rewrite Hp. Qed.

Lemma detect_motion_next w frame prev :
  previous_gray w = Some prev →
  detect_motion frame w
  = (int_gt_float (changed_pixels prev (filtered frame) 25)
       (inject_Z (FRAME_WIDTH * FRAME_HEIGHT) * MOTION_THRESHOLD),
     {| frame_buffer := frame_buffer w; shutdown_event := shutdown_event w;
        previous_gray := Some (filtered frame); trace := trace w |}).
Proof.
  intros Hp. unfold detect_motion, bind, gets. simpl. rewrite Hp. simpl.
  by rewrite countNonZero_changed.
Qed.

Lemma detect_motion_baseline w frame :
  previous_gray (snd (detect_motion frame w)) = Some (filtered frame).
Proof.
  destruct (previous_gray w) as [prev|] eqn:Hp.
  - by rewrite (detect_motion_next w frame prev).
  - by rewrite detect_motion_first.
Qed.

Lemma detect_motion_eq w frame :
  detect_motion frame w
  = (match previous_gray w with
     | None => false
     | Some prev => motion_between prev (filtered frame)
     end,
     {| frame_buffer := frame_buffer w; shutdown_event := shutdown_event w;
        previous_gray := Some (filtered frame); trace := trace w |}).
Proof.
  unfold detect_motion, bind, gets, motion_between. simpl.
  by destruct (previous_gray w).
Qed.

Lemma motion_between_iff (a b : Gray) :
  motion_between a b = true ↔ 15360 < changed_pixels a b 25.
Proof.
  unfold motion_between.
  by rewrite int_gt_float_iff, countNonZero_changed, motion_threshold_value.
Qed.

Lemma classify_all_cons frame frames w :
  classify_all (frame :: frames) w
  = (fst (detect_motion frame w)
       :: fst (classify_all frames (snd (detect_motion frame w))),
     snd (classify_all frames (snd (detect_motion frame w)))).
Proof.
  simpl. unfold bind.
  destruct (detect_motion frame w) as [b w1]. simpl.
  by destruct (classify_all frames w1).
Qed.

(** In a run of calls every result after the first compares a frame with
    the one just before it, and the baseline ends as the last frame. *)
Lemma classify_all_consecutive frames w prev :
  previous_gray w = Some prev →
  fst (classify_all frames w)
  = zip_with motion_between (prev :: (filtered <$> frames)) (filtered <$> frames)
  ∧ previous_gray (snd (classify_all frames w))
    = last (prev :: (filtered <$> frames)).
Proof.
  revert w prev. induction frames as [|f frames IH]; intros w prev Hp; [done|].
  rewrite classify_all_cons, detect_motion_eq, Hp.
  cbn [fst snd].
  match goal with |- context [classify_all frames ?w1] =>
    destruct (IH w1 (filtered f) eq_refl) as [IH1 IH2] end.
  rewrite IH1, IH2. done.
Qed.


(** C5. The first call, whatever the frame, reports no motion and stores the
    frame's smoothed intensity as the baseline; nothing else changes. *)
Theorem first_call_reports_no_motion w frame :
  previous_gray w = None →
  fst (detect_motion frame w) = false
  ∧ previous_gray (snd (detect_motion frame w)) = Some (filtered frame)
  ∧ detect_motion frame w
    = (false, {| frame_buffer := frame_buffer w; shutdown_event := shutdown_event w;
                 previous_gray := Some (filtered frame); trace := trace w |}).
Proof. intros Hp. by rewrite detect_motion_first. Qed.

(** C7. After every call, the first included, the stored baseline is the
    smoothed intensity of the frame just classified; so the next call
    compares with that frame, whatever the baseline was before, and in a run
    of calls each result compares a frame with its immediate predecessor. *)
Theorem baseline_is_previous_frame w frame :
  previous_gray (snd (detect_motion frame w)) = Some (filtered frame)
  ∧ (∀ next, fst (detect_motion next (snd (detect_motion frame w)))
             = motion_between (filtered frame) (filtered next))
  ∧ (∀ frames,
       fst (classify_all (frame :: frames) w)
       = fst (detect_motion frame w)
         :: zip_with motion_between (filtered <$> frame :: frames) (filtered <$> frames)
       ∧ previous_gray (snd (classify_all (frame :: frames) w))
         = last (filtered <$> frame :: frames)).
Proof.
  split; [apply detect_motion_baseline|]. split.
  - intros next. by rewrite !detect_motion_eq.
  - intros frames. rewrite classify_all_cons. cbn [fst snd].
    destruct (classify_all_consecutive frames _ _ (detect_motion_baseline w frame))
      as [H1 H2].
    by rewrite H1, H2.
Qed.

End Motion.

(** ** The two loops *)

(** Unfold the monadic plumbing of a thread body. *)
Ltac run_body :=
  unfold process_finish, handle_signal, mbind, M_bind, bind, gets, emit,
    set_frame_buffer, set_previous_gray, shutdown_set, mret, M_ret;
  cbn beta iota delta [fst snd frame_buffer shutdown_event previous_gray trace].

Section Threads.
Context `{External}.
Implicit Types (w : World) (frame : Frame) (l : Locals) (s : System).

Lemma capture_iteration_failed w :
  shutdown_event w = false →
  capture_iteration None w
  = (Looping tt,
     {| frame_buffer := frame_buffer w; shutdown_event := shutdown_event w;
        previous_gray := previous_gray w; trace := trace w ++ [WARNING] |}).
Proof. intros Hs. unfold capture_iteration. run_body. rewrite Hs. by rewrite ?Hs. Qed.

Lemma capture_iteration_frame w frame :
  shutdown_event w = false → Queue.wf (frame_buffer w) →
  capture_iteration (Some frame) w
  = (Looping tt,
     {| frame_buffer :=
          Queue.mk (Queue.maxsize (frame_buffer w))
            ((if Queue.full (frame_buffer w) then tail (Queue.queue (frame_buffer w))
              else Queue.queue (frame_buffer w)) ++ [frame]);
        shutdown_event := shutdown_event w;
        previous_gray := previous_gray w; trace := trace w |}).
Proof.
  intros Hs Hwf. unfold capture_iteration. run_body.
  pose proof (enqueue_done (frame_buffer w) frame Hwf) as He.
  unfold enqueue in He. rewrite Hs, He. by rewrite ?Hs.
Qed.

Lemma capture_iteration_stop r w :
  shutdown_event w = true →
  capture_iteration r w
  = (Returned,
     {| frame_buffer := frame_buffer w; shutdown_event := shutdown_event w;
        previous_gray := previous_gray w;
        trace := trace w ++ [CapRelease; Print "Capture thread terminated."] |}).
Proof.
  intros Hs. unfold capture_iteration. run_body. rewrite Hs.
  by rewrite ?Hs, <- app_assoc.
Qed.

Lemma process_iteration_stop t1 t2 t3 l w :
  shutdown_event w = true →
  process_iteration t1 t2 t3 l w
  = (Returned,
     {| frame_buffer := frame_buffer w; shutdown_event := shutdown_event w;
        previous_gray := previous_gray w;
        trace := trace w ++ [JsonDump (metadata_path l) (metadata_list l);
                             Release (out l);
                             Print "Processing thread terminated."] |}).
Proof.
  intros Hs. unfold process_iteration. run_body. rewrite Hs.
  by rewrite ?Hs, <- !app_assoc.
Qed.

Lemma process_iteration_idle t1 t2 t3 l w :
  shutdown_event w = false → Queue.empty (frame_buffer w) = true →
  process_iteration t1 t2 t3 l w = (Looping l, w).
Proof.
  intros Hs He. unfold process_iteration. run_body. by rewrite Hs, He.
Qed.

Lemma process_iteration_frame t1 t2 t3 l w frame rest :
  shutdown_event w = false → Queue.queue (frame_buffer w) = frame :: rest →
  process_iteration t1 t2 t3 l w
  = if rotation_due t2 (current_time l) then
      (Looping {| current_time := t3; video_path := video_file t3;
                  metadata_path := metadata_file t3; out := video_file t3;
                  metadata_list := [] |},
       {| frame_buffer := Queue.mk (Queue.maxsize (frame_buffer w)) rest;
          shutdown_event := shutdown_event w;
          previous_gray := Some (filtered frame);
          trace := trace w ++
                     [Write (out l) frame;
                      JsonDump (metadata_path l)
                        (metadata_list l ++ [record_of t1 w frame]);
                      Release (out l);
                      VideoWriter (video_file t3)] |})
    else
      (Looping {| current_time := current_time l; video_path := video_path l;
                  metadata_path := metadata_path l; out := out l;
                  metadata_list := metadata_list l ++ [record_of t1 w frame] |},
       {| frame_buffer := Queue.mk (Queue.maxsize (frame_buffer w)) rest;
          shutdown_event := shutdown_event w;
          previous_gray := Some (filtered frame);
          trace := trace w ++ [Write (out l) frame] |}).
Proof.
  intros Hs Hq. unfold process_iteration, record_of.
  rewrite !detect_motion_eq. run_body.
  unfold Queue.empty, Queue.qsize, Queue.get. rewrite Hs, Hq.
  change (Z.of_nat (length (frame :: rest)) =? 0) with false.
  cbn beta iota. rewrite detect_motion_eq. run_body. rewrite ?Hs.
  destruct (rotation_due t2 (current_time l)); run_body; [|done].
  by rewrite <- !app_assoc.
Qed.

End Threads.

(** ** Runs of the system *)

Section Runs.
Context `{External}.
Implicit Types (w : World) (frame : Frame) (l : Locals) (s : System)
  (tr : list effect).

Lemma run_snoc events e s : run (events ++ [e]) s = step e (run events s).
Proof. unfold run. by rewrite foldl_snoc. Qed.

Lemma run_app events1 events2 s :
  run (events1 ++ events2) s = run events2 (run events1 s).
Proof. unfold run. by rewrite foldl_app. Qed.

Lemma active_app tr tr' :
  active (tr ++ tr')
  = foldl (λ acc e, match e with VideoWriter _ => [] | _ => acc ++ [e] end)
      (active tr) tr'.
Proof. unfold active. by rewrite foldl_app. Qed.

Lemma opened_app tr tr' :
  opened (tr ++ tr')
  = foldl (λ o e, match e with VideoWriter path => Some path | _ => o end)
      (opened tr) tr'.
Proof. unfold opened. by rewrite foldl_app. Qed.

Lemma dumps_app tr tr' : dumps (tr ++ tr') = dumps tr ++ dumps tr'.
Proof. apply omap_app. Qed.

Lemma written_app tr tr' : written (tr ++ tr') = written tr ++ written tr'.
Proof. apply omap_app. Qed.

Lemma quiet_dumps evs : Forall quiet evs → dumps evs = [].
Proof. induction 1 as [|e evs He _ IH]; [done|]. destruct e; try done; apply IH. Qed.

Lemma quiet_written evs : Forall quiet evs → written evs = [].
Proof. induction 1 as [|e evs He _ IH]; [done|]. destruct e; try done; apply IH. Qed.

Lemma quiet_active tr evs : Forall quiet evs → active (tr ++ evs) = active tr ++ evs.
Proof.
  intros Hq. rewrite active_app. generalize (active tr). intros acc.
  revert acc. induction Hq as [|e evs He _ IH]; intros acc; simpl.
  - by rewrite app_nil_r.
  - destruct e; try done; by rewrite IH, <- app_assoc.
Qed.

Lemma quiet_opened tr evs : Forall quiet evs → opened (tr ++ evs) = opened tr.
Proof.
  intros Hq. rewrite opened_app. generalize (opened tr). intros o.
  induction Hq as [|e evs He _ IH]; simpl; [done|]. by destruct e.
Qed.

Lemma segment_ok_quiet tr evs l :
  Forall quiet evs → segment_ok tr l → segment_ok (tr ++ evs) l.
Proof.
  intros Hq (Ho & Hd & Hl). unfold segment_ok.
  rewrite quiet_opened, quiet_active, dumps_app, written_app by done.
  rewrite (quiet_dumps evs), (quiet_written evs), !app_nil_r by done. done.
Qed.

(** What the capture thread and the signal handler add to the trace. *)
Lemma capture_iteration_quiet r w :
  ∃ evs, trace (snd (capture_iteration r w)) = trace w ++ evs ∧ Forall quiet evs.
Proof.
  unfold capture_iteration. run_body.
  destruct (shutdown_event w).
  - exists [CapRelease; Print "Capture thread terminated."]. simpl.
    rewrite <- app_assoc. split; [done|]. by repeat constructor.
  - destruct r as [frame|].
    + exists []. rewrite app_nil_r. split; [|done].
      by destruct (Queue.put (discard_if_full (frame_buffer w)) frame).
    + eexists [_]. split; [done|]. by repeat constructor.
Qed.

Lemma handle_signal_quiet sig w :
  ∃ evs, trace (snd (handle_signal sig w)) = trace w ++ evs ∧ Forall quiet evs.
Proof. eexists [_]. split; [done|]. by repeat constructor. Qed.

Lemma step_signal sig s :
  step (Signal sig) s
  = {| world := snd (handle_signal sig (world s)); capture := capture s;
       processing := processing s |}.
Proof. unfold step. by destruct (handle_signal sig (world s)). Qed.

Lemma step_capture r s :
  capture s = Looping tt →
  step (Capture r) s
  = {| world := snd (capture_iteration r (world s));
       capture := fst (capture_iteration r (world s));
       processing := processing s |}.
Proof. intros Hc. unfold step. rewrite Hc. by destruct (capture_iteration r (world s)). Qed.

Lemma step_process t1 t2 t3 l s :
  processing s = Looping l →
  step (Process t1 t2 t3) s
  = {| world := snd (process_iteration t1 t2 t3 l (world s));
       capture := capture s;
       processing := fst (process_iteration t1 t2 t3 l (world s)) |}.
Proof.
  intros Hp. unfold step. rewrite Hp.
  by destruct (process_iteration t1 t2 t3 l (world s)).
Qed.

Lemma step_capture_done r s : capture s ≠ Looping tt → step (Capture r) s = s.
Proof. unfold step. by destruct (capture s) as [[]| |]. Qed.

Lemma step_process_done t1 t2 t3 s :
  (∀ l, processing s ≠ Looping l) → step (Process t1 t2 t3) s = s.
Proof. unfold step. destruct (processing s) as [l| |]; [|done..]. by intros []%(.$ l). Qed.

Lemma boot_invariant opened_ok now : invariant (boot opened_ok now).
Proof.
  unfold invariant, boot, Queue.wf, Queue.qsize, BUFFER_SIZE.
  by destruct opened_ok.
Qed.

Lemma empty_queue (q : Queue.t Frame) :
  Queue.empty q = true ∨ ∃ frame rest, Queue.queue q = frame :: rest.
Proof.
  unfold Queue.empty, Queue.qsize. destruct (Queue.queue q) as [|frame rest]; eauto.
Qed.

Lemma wf_tail (q : Queue.t Frame) frame rest :
  Queue.wf q → Queue.queue q = frame :: rest →
  Queue.wf (Queue.mk (Queue.maxsize q) rest).
Proof.
  unfold Queue.wf, Queue.qsize. intros Hwf Hq Hpos. specialize (Hwf Hpos).
  rewrite Hq in Hwf. simpl in *. lia.
Qed.

Lemma segment_ok_frame tr l frame r :
  segment_ok tr l →
  segment_ok (tr ++ [Write (out l) frame])
    {| current_time := current_time l; video_path := video_path l;
       metadata_path := metadata_path l; out := out l;
       metadata_list := metadata_list l ++ [r] |}.
Proof.
  intros (Ho & Hd & Hl). unfold segment_ok.
  rewrite opened_app, active_app. simpl.
  rewrite dumps_app, written_app, !length_app. simpl.
  rewrite Hd, Hl. done.
Qed.

Lemma segment_ok_rotated tr l frame records t :
  segment_ok
    (tr ++ [Write (out l) frame; JsonDump (metadata_path l) records;
            Release (out l); VideoWriter (video_file t)])
    {| current_time := t; video_path := video_file t;
       metadata_path := metadata_file t; out := video_file t;
       metadata_list := [] |}.
Proof. unfold segment_ok. rewrite opened_app, active_app. done. Qed.

Lemma step_invariant e s : invariant s → invariant (step e s).
Proof.
  intros (Hwf & Hc & Hp). destruct s as [w c p]. unfold invariant.
  cbn [world capture processing] in *.
  destruct e as [sig|r|t1 t2 t3].
  - rewrite step_signal. cbn [world capture processing].
    destruct (handle_signal_quiet sig w) as (evs & Htr & Hq).
    split; [done|]. split; [done|].
    destruct p as [l| |]; [|done..]. rewrite Htr. by apply segment_ok_quiet.
  - destruct c as [[]| |]; [|by rewrite step_capture_done..].
    rewrite step_capture by done. cbn [world capture processing].
    destruct (capture_iteration_quiet r w) as (evs & Htr & Hq).
    assert (Queue.wf (frame_buffer (snd (capture_iteration r w)))
            ∧ fst (capture_iteration r w) ≠ Waiting) as [Hwf' Hc'].
    { destruct (shutdown_event w) eqn:Hs.
      - by rewrite capture_iteration_stop.
      - destruct r as [frame|].
        + rewrite capture_iteration_frame by done. split; [|done].
          eapply (enqueue_wf _ frame); [done|]. by rewrite enqueue_done.
        + by rewrite capture_iteration_failed. }
    split; [done|]. split; [done|].
    destruct p as [l| |]; [|done..]. rewrite Htr. by apply segment_ok_quiet.
  - destruct p as [l| |]; [|by rewrite step_process_done..].
    rewrite (step_process _ _ _ l) by done. cbn [world capture processing].
    destruct (shutdown_event w) eqn:Hs.
    + by rewrite process_iteration_stop.
    + destruct (empty_queue (frame_buffer w)) as [He|(frame & rest & Hq)].
      * by rewrite process_iteration_idle.
      * rewrite (process_iteration_frame _ _ _ _ _ frame rest) by done.
        pose proof (wf_tail _ _ _ Hwf Hq).
        destruct (rotation_due t2 (current_time l)); simpl.
        -- split; [done|]. split; [done|]. apply segment_ok_rotated.
        -- split; [done|]. split; [done|]. by apply segment_ok_frame.
Qed.

Lemma run_invariant events s : invariant s → invariant (run events s).
Proof.
  induction events as [|e events IH] using rev_ind; [done|].
  intros Hs. rewrite run_snoc. by apply step_invariant, IH.
Qed.

Lemma reachable_invariant opened_ok now events :
  invariant (run events (boot opened_ok now)).
Proof. apply run_invariant, boot_invariant. Qed.

(** Once the processing thread has returned it does nothing more. *)
Lemma returned_stays e s :
  processing s = Returned →
  processing (step e s) = Returned
  ∧ dumps (trace (world (step e s))) = dumps (trace (world s))
  ∧ written (trace (world (step e s))) = written (trace (world s)).
Proof.
  intros Hp. destruct e as [sig|r|t1 t2 t3].
  - rewrite step_signal. cbn [world capture processing].
    destruct (handle_signal_quiet sig (world s)) as (evs & Htr & Hq).
    by rewrite Htr, dumps_app, written_app, (quiet_dumps evs), (quiet_written evs), !app_nil_r.
  - destruct (capture s) as [[]| |] eqn:Hc;
      [|by rewrite step_capture_done by (by rewrite Hc)..].
    rewrite step_capture by done. cbn [world capture processing].
    destruct (capture_iteration_quiet r (world s)) as (evs & Htr & Hq).
    by rewrite Htr, dumps_app, written_app, (quiet_dumps evs), (quiet_written evs), !app_nil_r.
  - rewrite step_process_done; [done|]. intros l. by rewrite Hp.
Qed.

Lemma returned_run events s :
  processing s = Returned →
  processing (run events s) = Returned
  ∧ dumps (trace (world (run events s))) = dumps (trace (world s))
  ∧ written (trace (world (run events s))) = written (trace (world s)).
Proof.
  intros Hp. induction events as [|e events IH] using rev_ind; [done|].
  rewrite run_snoc. destruct IH as (IH1 & IH2 & IH3).
  destruct (returned_stays e _ IH1) as (? & ? & ?). split; [done|]. split; congruence.
Qed.

End Runs.

Section Claims.
Context `{External}.
Implicit Types (w : World) (frame : Frame) (l : Locals) (s : System).

(** C8. On every buffer within its bound, the capture thread's insertion
    completes at once, without waiting and without raising: a full buffer
    loses its oldest entry and nothing else, then the frame is appended; the
    capture thread stays in its loop, and in no run of the system does it
    ever wait on the buffer. *)
Theorem put_never_blocks w frame :
  shutdown_event w = false → Queue.wf (frame_buffer w) →
  enqueue frame (frame_buffer w)
  = Done (Queue.mk (Queue.maxsize (frame_buffer w))
            ((if Queue.full (frame_buffer w) then tail (Queue.queue (frame_buffer w))
              else Queue.queue (frame_buffer w)) ++ [frame]))
  ∧ fst (capture_iteration (Some frame) w) = Looping tt
  ∧ enqueue frame (frame_buffer w)
    = Done (frame_buffer (snd (capture_iteration (Some frame) w)))
  ∧ Queue.wf (frame_buffer (snd (capture_iteration (Some frame) w)))
  ∧ (∀ opened_ok now events,
       capture (run events (boot opened_ok now)) ≠ Waiting).
Proof.
  intros Hs Hwf. rewrite capture_iteration_frame, enqueue_done by done.
  cbn [fst snd frame_buffer]. split; [done|]. split; [done|]. split; [done|].
  split.
  - eapply (enqueue_wf _ frame); [done|]. by rewrite enqueue_done.
  - intros o now events. by destruct (reachable_invariant o now events) as (_ & ? & _).
Qed.

(** C9. When [cap.read()] fails, the pass ends there: no frame is enqueued,
    the buffer and the shutdown flag are as before, only the warning is
    printed, and the thread is back at the head of its loop; this repeats for
    any number of failed reads in a row. *)
Theorem failed_read_is_skipped s n :
  capture s = Looping tt → shutdown_event (world s) = false →
  run (replicate n (Capture None)) s
  = {| world :=
         {| frame_buffer := frame_buffer (world s);
            shutdown_event := false;
            previous_gray := previous_gray (world s);
            trace := trace (world s) ++ replicate n WARNING |};
       capture := Looping tt;
       processing := processing s |}.
Proof.
  revert s. induction n as [|n IH]; intros s Hc Hs.
  - simpl. rewrite app_nil_r. destruct s as [[] ? ?]. simpl in *. by subst.
  - change (run (replicate (S n) (Capture None)) s)
      with (run (replicate n (Capture None)) (step (Capture None) s)).
    rewrite step_capture, capture_iteration_failed by done.
    cbn [fst snd]. rewrite IH by done.
    cbn [world capture processing frame_buffer shutdown_event previous_gray trace].
    by rewrite <- app_assoc.
Qed.

(** C10. While the buffer is empty a pass of the processing thread changes
    nothing, whatever the clock reads: no rotation, no file written, the same
    segment open.  The rotation test is made on the next frame that is
    processed (which then is written to the old segment before the
    rotation), or the segment is flushed on shutdown. *)
Theorem no_frame_no_rotation s l readings :
  processing s = Looping l →
  shutdown_event (world s) = false →
  Queue.empty (frame_buffer (world s)) = true →
  run (passes readings) s = s
  ∧ (∀ t1 t2 t3, process_iteration t1 t2 t3 l (world s) = (Looping l, world s))
  ∧ (∀ w frame rest t1 t2 t3,
       shutdown_event w = false →
       Queue.queue (frame_buffer w) = frame :: rest →
       rotation_due t2 (current_time l) = true →
       trace (snd (process_iteration t1 t2 t3 l w))
       = trace w ++ [Write (out l) frame;
                     JsonDump (metadata_path l)
                       (metadata_list l ++ [record_of t1 w frame]);
                     Release (out l);
                     VideoWriter (video_file t3)])
  ∧ (∀ w t1 t2 t3,
       shutdown_event w = true →
       trace (snd (process_iteration t1 t2 t3 l w))
       = trace w ++ [JsonDump (metadata_path l) (metadata_list l);
                     Release (out l);
                     Print "Processing thread terminated."]).
Proof.
  intros Hp Hs He. split; [|split; [|split]].
  - induction readings as [|[[t1 t2] t3] readings IH]; [done|].
    change (run (passes (((t1, t2), t3) :: readings)) s)
      with (run (passes readings) (step (Process t1 t2 t3) s)).
    rewrite (step_process _ _ _ l), process_iteration_idle by done.
    cbn [fst snd]. rewrite <- Hp. destruct s. apply IH.
  - intros. by apply process_iteration_idle.
  - intros w frame rest t1 t2 t3 Hw Hq Hdue.
    by rewrite (process_iteration_frame _ _ _ _ _ frame rest), Hdue.
  - intros w t1 t2 t3 Hw. by rewrite process_iteration_stop.
Qed.


End Claims.

(** ** Rotation *)

(** Within a day of the segment's start the test is the intended one. *)
Lemma rotation_due_within_a_day now start :
  0 ≤ now - start < DAY →
  rotation_due now start = true ↔ HOUR ≤ now - start.
Proof.
  unfold rotation_due, datetime_sub, timedelta_of, DAY, HOUR, SECOND. simpl.
  intros Hd. rewrite Z.leb_le.
  rewrite Z.mod_small by (split; [apply Z.div_pos; lia|apply Z.div_lt_upper_bound; lia]).
  split; intros Hle.
  - apply Z.nlt_ge. intros Hlt.
    apply (Z.div_lt_upper_bound _ 1000000 3600) in Hlt; lia.
  - apply Z.div_le_lower_bound; lia.
Qed.

(** What [.seconds] is: the whole seconds elapsed, less the whole days. *)
Lemma rotation_due_seconds now start :
  rotation_due now start = true ↔ 3600 ≤ ((now - start) / SECOND) mod 86400.
Proof. unfold rotation_due, datetime_sub, timedelta_of, SECOND. simpl. apply Z.leb_le. Qed.

(** C2. A frame processed one day and ten seconds after its segment began:
    the time elapsed is well past the hour, yet [.seconds] of the difference
    is 10, the test fails, and the segment is not rotated; the frame's record
    stays in the list of the segment begun at 0 and no file is written. *)
Theorem rotation_missed_after_a_day :
  HOUR ≤ (DAY + 10 * SECOND) - 0
  ∧ datetime_sub (DAY + 10 * SECOND) 0
    = {| days := 1; seconds := 10; microseconds := 0 |}
  ∧ whole_seconds (datetime_sub (DAY + 10 * SECOND) 0) = 86410
  ∧ rotation_due (DAY + 10 * SECOND) 0 = false
  ∧ dumps (trace (world (run Sim.late_frame (boot true 0)))) = []
  ∧ processing (run Sim.late_frame (boot true 0))
    = Looping {| current_time := 0;
                 video_path := "recordings/0.mp4";
                 metadata_path := "metadata/0.json";
                 out := "recordings/0.mp4";
                 metadata_list :=
                   [{| timestamp := "86410000000"; motion_detected := false |}] |}.
Proof. split; [by vm_compute|]. by vm_compute. Qed.

(** C3, as the program behaves.  With the segment begun at time 0 and frames
    processed at 0, 0.5 and 1.2 hours, no file is written while the first
    two frames are processed; the one rotation happens in the pass that
    processes the third frame, after that frame has been written to the first
    segment and its record appended.  The first segment's metadata file
    holds 3 records, and the second segment's, written at shutdown, holds
    none. *)
Theorem three_frames_rotate_after_third (t : datetime) :
  dumps (trace (world (run (take 4 Sim.three_frames) (boot true 0)))) = []
  ∧ Sim.records_per_file (run Sim.three_frames (boot true 0)) = [3%nat]
  ∧ trace (world (run Sim.three_frames (boot true 0)))
    = [VideoWriter "recordings/0.mp4";
       Write "recordings/0.mp4" (1 : Sim.F);
       Write "recordings/0.mp4" (2 : Sim.F);
       Write "recordings/0.mp4" (3 : Sim.F);
       JsonDump "metadata/0.json"
         [{| timestamp := "0"; motion_detected := false |};
          {| timestamp := "1800000000"; motion_detected := false |};
          {| timestamp := "4320000000"; motion_detected := false |}];
       Release "recordings/0.mp4";
       VideoWriter "recordings/4320.mp4"]
  ∧ dumps (trace (world (run (Sim.three_frames ++ Sim.interrupt t) (boot true 0))))
    = [("metadata/0.json",
        [{| timestamp := "0"; motion_detected := false |};
         {| timestamp := "1800000000"; motion_detected := false |};
         {| timestamp := "4320000000"; motion_detected := false |}]);
       ("metadata/4320.json", [])]
  ∧ Sim.records_per_file (run (Sim.three_frames ++ Sim.interrupt t) (boot true 0))
    = [3%nat; 0%nat].
Proof. repeat split; reflexivity. Qed.

(** C3 as claimed fails: the files do not hold 2 and 1 records. *)
Lemma three_frames_not_two_and_one :
  Sim.records_per_file
    (run (Sim.three_frames ++ Sim.interrupt (2 * HOUR)) (boot true 0))
  ≠ [2%nat; 1%nat].
Proof. by vm_compute. Qed.

(** ** The theorems at concrete inputs *)



Lemma first_call_reports_no_motion_witness :
  fst (detect_motion (7 : Sim.F) (world Sim.start)) = false.
Proof.
  exact (proj1 (first_call_reports_no_motion (world Sim.start) (7 : Sim.F) eq_refl)).
Defined.

Lemma put_never_blocks_witness :
  fst (capture_iteration (Some (1 : Sim.F)) (world Sim.start)) = Looping tt.
Proof.
  apply (put_never_blocks (world Sim.start) (1 : Sim.F)).
  - reflexivity.
  - intros _. vm_compute. discriminate.
Defined.

Lemma failed_read_is_skipped_witness :
  capture (run (replicate 3 (Capture None)) Sim.start) = Looping tt
  ∧ frame_buffer (world (run (replicate 3 (Capture None)) Sim.start))
    = frame_buffer (world Sim.start).
Proof.
  rewrite (failed_read_is_skipped Sim.start 3 eq_refl eq_refl). split; reflexivity.
Defined.

Lemma no_frame_no_rotation_witness :
  run (passes [(DAY, DAY, DAY); (2 * DAY, 2 * DAY, 2 * DAY)]) Sim.start = Sim.start.
Proof.
  exact (proj1 (no_frame_no_rotation Sim.start _
                  [(DAY, DAY, DAY); (2 * DAY, 2 * DAY, 2 * DAY)]
                  eq_refl eq_refl eq_refl)).
Defined.


(** * Further properties *)

(** ** One step of the system, case by case *)

Section Steps.
Context `{External}.
Implicit Types (w : World) (frame : Frame) (l : Locals) (s : System)
  (tr : list effect).

(** To prove [P] of the state after any event it is enough to prove it of
    each state a signal, a pass of the capture loop or a pass of the
    processing loop can lead to. *)
Lemma step_elim (P : System → Prop) s e :
  Queue.wf (frame_buffer (world s)) →
  P s →
  (∀ sig, e = Signal sig →
     P (in_world (λ w, logged [signal_message sig] (cancelled w)) s)) →
  (shutdown_event (world s) = true → capture s = Looping tt →
   P {| world := logged [CapRelease; Print "Capture thread terminated."] (world s);
        capture := Returned; processing := processing s |}) →
  (e = Capture None →
   shutdown_event (world s) = false → capture s = Looping tt →
   P (in_world (logged [WARNING]) s)) →
  (∀ frame, e = Capture (Some frame) →
     shutdown_event (world s) = false → capture s = Looping tt →
     P (in_world (λ w, with_buffer (pushed frame (frame_buffer w)) w) s)) →
  (∀ l, shutdown_event (world s) = true → processing s = Looping l →
   P {| world := logged [JsonDump (metadata_path l) (metadata_list l);
                         Release (out l);
                         Print "Processing thread terminated."] (world s);
        capture := capture s; processing := Returned |}) →
  (∀ l frame rest t_frame t_check t_new,
     e = Process t_frame t_check t_new →
     shutdown_event (world s) = false → processing s = Looping l →
     Queue.queue (frame_buffer (world s)) = frame :: rest →
     rotation_due t_check (current_time l) = false →
     P {| world :=
            logged [Write (out l) frame]
              (with_baseline (filtered frame)
                 (with_buffer (Queue.mk (Queue.maxsize (frame_buffer (world s))) rest)
                    (world s)));
          capture := capture s;
          processing := Looping (appended (record_of t_frame (world s) frame) l) |}) →
  (∀ l frame rest t_frame t_check t_new,
     e = Process t_frame t_check t_new →
     shutdown_event (world s) = false → processing s = Looping l →
     Queue.queue (frame_buffer (world s)) = frame :: rest →
     rotation_due t_check (current_time l) = true →
     P {| world :=
            logged [Write (out l) frame;
                    JsonDump (metadata_path l)
                      (metadata_list l ++ [record_of t_frame (world s) frame]);
                    Release (out l);
                    VideoWriter (video_file t_new)]
              (with_baseline (filtered frame)
                 (with_buffer (Queue.mk (Queue.maxsize (frame_buffer (world s))) rest)
                    (world s)));
          capture := capture s;
          processing := Looping (segment_at t_new) |}) →
  P (step e s).
Proof.
  intros Hwf Hsame Hsig Hcstop Hcfail Hcframe Hpstop Hpframe Hprot.
  destruct e as [sig|r|t1 t2 t3].
  - rewrite step_signal. by apply Hsig.
  - destruct (capture s) as [[]| |] eqn:Hc;
      [|by rewrite step_capture_done by (by rewrite Hc)..].
    rewrite step_capture by done.
    destruct (shutdown_event (world s)) eqn:Hs.
    + rewrite capture_iteration_stop by done. by apply Hcstop.
    + destruct r as [frame|].
      * rewrite capture_iteration_frame by done.
        specialize (Hcframe frame eq_refl eq_refl eq_refl).
        unfold in_world in Hcframe. by rewrite Hc in Hcframe.
      * rewrite capture_iteration_failed by done.
        specialize (Hcfail eq_refl eq_refl eq_refl).
        unfold in_world in Hcfail. by rewrite Hc in Hcfail.
  - destruct (processing s) as [l| |] eqn:Hp;
      [|by rewrite step_process_done by (intros l; by rewrite Hp)..].
    rewrite (step_process _ _ _ l) by done.
    destruct (shutdown_event (world s)) eqn:Hs.
    + rewrite process_iteration_stop by done. by apply Hpstop.
    + destruct (empty_queue (frame_buffer (world s))) as [He|(frame & rest & Hq)].
      * rewrite process_iteration_idle by done. cbn [fst snd].
        rewrite <- Hp. by destruct s.
      * rewrite (process_iteration_frame _ _ _ _ _ frame rest) by done.
        destruct (rotation_due t2 (current_time l)) eqn:Hdue; cbn [fst snd].
        -- by apply (Hprot l frame rest t1 t2 t3).
        -- by apply (Hpframe l frame rest t1 t2 t3).
Qed.

End Steps.

(** ** What every run keeps *)

Section Reachable.
Context `{External}.
Implicit Types (w : World) (frame : Frame) (l : Locals) (s : System)
  (tr : list effect) (events : list event).

(** Induction over the states a run from [boot] passes through. *)
Lemma reachable_ind (Q : list event → System → Prop) opened_ok now :
  Q [] (boot opened_ok now) →
  (∀ events s e,
     s = run events (boot opened_ok now) → invariant s →
     Q events s → Q (events ++ [e]) (step e s)) →
  ∀ events, Q events (run events (boot opened_ok now)).
Proof.
  intros Hboot Hstep events.
  induction events as [|e events IH] using rev_ind; [done|].
  rewrite run_snoc. apply Hstep; [done|apply reachable_invariant|done].
Qed.

Lemma offered_snoc events e :
  offered (events ++ [e])
  = offered events
    ++ match e with Capture (Some frame) => [frame] | _ => [] end.
Proof. unfold offered. rewrite omap_app. f_equal. by destruct e as [|[]|]. Qed.

Lemma written_logged evs w :
  written (trace (logged evs w)) = written (trace w) ++ written evs.
Proof. apply written_app. Qed.

Lemma dumps_logged evs w :
  dumps (trace (logged evs w)) = dumps (trace w) ++ dumps evs.
Proof. apply dumps_app. Qed.

(** X1. The buffer never grows past its configured size: in every state of
    every run its capacity is [BUFFER_SIZE] and it holds at most 128
    frames. *)
Theorem buffer_never_exceeds_128 opened_ok now events :
  Queue.maxsize (frame_buffer (world (run events (boot opened_ok now)))) = BUFFER_SIZE
  ∧ (length (Queue.queue (frame_buffer (world (run events (boot opened_ok now)))))
     ≤ 128)%nat.
Proof.
  assert (Queue.maxsize (frame_buffer (world (run events (boot opened_ok now))))
          = BUFFER_SIZE) as Hmax.
  { apply (reachable_ind (λ _ s, Queue.maxsize (frame_buffer (world s)) = BUFFER_SIZE)).
    - by destruct opened_ok.
    - clear events. intros events s e _ (Hwf & _) Hs.
      apply (step_elim (λ s', Queue.maxsize (frame_buffer (world s')) = BUFFER_SIZE));
        try done. }
  split; [done|].
  destruct (reachable_invariant opened_ok now events) as (Hwf & _).
  unfold Queue.wf, Queue.qsize in Hwf. rewrite Hmax in Hwf.
  unfold BUFFER_SIZE in Hwf. lia.
Qed.

(** X2. Frames reach the video in the order the camera delivered them: at
    every point of every run the frames written so far, followed by the
    frames waiting in the buffer, are a subsequence of the frames read; none
    is duplicated, reordered or invented. *)
Theorem frames_written_in_capture_order opened_ok now events :
  sublist
    (written (trace (world (run events (boot opened_ok now))))
     ++ Queue.queue (frame_buffer (world (run events (boot opened_ok now)))))
    (offered events).
Proof.
  apply (reachable_ind
           (λ events s, sublist (written (trace (world s))
                                 ++ Queue.queue (frame_buffer (world s)))
                          (offered events))).
  - by destruct opened_ok.
  - clear events. intros events s e _ (Hwf & _) IH. rewrite offered_snoc.
    apply (step_elim
             (λ s', sublist (written (trace (world s'))
                             ++ Queue.queue (frame_buffer (world s'))) _));
      [done|by apply sublist_inserts_r|..].
    + intros sig ->. cbn [in_world world]. rewrite written_logged, !app_nil_r. done.
    + intros Hs Hc. cbn [world]. rewrite written_logged.
      by apply sublist_inserts_r; rewrite app_nil_r.
    + intros -> Hs Hc. cbn [in_world world]. rewrite written_logged, !app_nil_r. done.
    + intros frame -> Hs Hc. cbn [in_world world with_buffer pushed frame_buffer
                                    trace Queue.queue].
      rewrite app_assoc. apply sublist_app; [|done].
      etrans; [|exact IH]. apply sublist_app; [done|].
      destruct (Queue.full _); [|done].
      destruct (Queue.queue _); [done|]. by apply sublist_cons.
    + intros l Hs Hp. cbn [world]. rewrite written_logged.
      by apply sublist_inserts_r; rewrite app_nil_r.
    + intros l frame rest t1 t2 t3 -> Hs Hp Hq Hdue. cbn [world].
      rewrite written_logged. cbn [logged with_baseline with_buffer frame_buffer
                                     trace Queue.queue written omap].
      rewrite Hq in IH. rewrite app_nil_r, <- app_assoc. done.
    + intros l frame rest t1 t2 t3 -> Hs Hp Hq Hdue. cbn [world].
      rewrite written_logged. cbn [logged with_baseline with_buffer frame_buffer
                                     trace Queue.queue written omap].
      rewrite Hq in IH. rewrite app_nil_r, <- app_assoc. done.
Qed.

Lemma audit_app tr tr' :
  audit (tr ++ tr') = foldl (λ o e, o ≫= λ st, audit_step st e) (audit tr) tr'.
Proof. unfold audit. by rewrite foldl_app. Qed.

Lemma audit_logged evs w :
  audit (trace (logged evs w))
  = foldl (λ o e, o ≫= λ st, audit_step st e) (audit (trace w)) evs.
Proof. apply audit_app. Qed.

(** X3. Every run keeps to the discipline of one writer at a time: a writer
    is opened only when none is open; frames are written only to the open
    writer and only before its segment's metadata is dumped; the metadata
    is dumped once per segment, while the writer is still open, with exactly
    one record for each frame written to it; and a writer is released only
    after that.  While the processing thread loops, the open writer is
    [out], with one pending record per frame written to it; once the thread
    has returned no writer is open. *)
Theorem writer_discipline opened_ok now events :
  ∃ st, audit (trace (world (run events (boot opened_ok now)))) = Some st
      ∧ match processing (run events (boot opened_ok now)) with
        | Looping l =>
            open_writer st = Some (out l)
            ∧ frames_written st = length (metadata_list l)
            ∧ metadata_dumped st = false
        | Returned => open_writer st = None
        | Waiting => False
        end.
Proof.
  apply (reachable_ind
           (λ _ s, ∃ st, audit (trace (world s)) = Some st
                       ∧ match processing s with
                         | Looping l =>
                             open_writer st = Some (out l)
                             ∧ frames_written st = length (metadata_list l)
                             ∧ metadata_dumped st = false
                         | Returned => open_writer st = None
                         | Waiting => False
                         end)).
  - eexists. by destruct opened_ok.
  - clear events. intros events s e _ (Hwf & _) (st & Ha & Hst).
    apply (step_elim
             (λ s', ∃ st, audit (trace (world s')) = Some st
                        ∧ match processing s' with
                          | Looping l =>
                              open_writer st = Some (out l)
                              ∧ frames_written st = length (metadata_list l)
                              ∧ metadata_dumped st = false
                          | Returned => open_writer st = None
                          | Waiting => False
                          end)); [done|by exists st|..].
    + intros sig _. exists st. cbn [in_world world processing logged cancelled trace].
      by rewrite audit_app, Ha.
    + intros _ _. exists st. cbn [world processing]. by rewrite audit_logged, Ha.
    + intros _ _ _. exists st. cbn [in_world world processing].
      by rewrite audit_logged, Ha.
    + intros frame _ _ _. by exists st.
    + intros l _ Hp. rewrite Hp in Hst. destruct Hst as (Ho & Hn & Hd).
      cbn [world processing]. rewrite audit_logged, Ha.
      destruct st as [o n d]. cbn in *. subst. cbn.
      rewrite !decide_True by done. cbn. rewrite decide_True by done. by eexists.
    + intros l frame rest t1 t2 t3 _ _ Hp _ _. rewrite Hp in Hst.
      destruct Hst as (Ho & Hn & Hd).
      cbn [world processing]. rewrite audit_logged.
      cbn [logged with_baseline with_buffer trace]. rewrite Ha.
      destruct st as [o n d]. cbn in *. subst. cbn.
      rewrite decide_True by done. cbn. eexists. split; [done|].
      rewrite length_app. cbn. split; [done|]. split; [lia|done].
    + intros l frame rest t1 t2 t3 _ _ Hp _ _. rewrite Hp in Hst.
      destruct Hst as (Ho & Hn & Hd).
      cbn [world processing]. rewrite audit_logged.
      cbn [logged with_baseline with_buffer trace]. rewrite Ha.
      destruct st as [o n d]. cbn in *. subst. cbn.
      rewrite decide_True by done. cbn.
      rewrite decide_True by (rewrite length_app; cbn; lia). cbn.
      rewrite decide_True by done. cbn. by eexists.
Qed.

Lemma records_dumped_app tr tr' :
  records_dumped (tr ++ tr') = records_dumped tr ++ records_dumped tr'.
Proof. unfold records_dumped. by rewrite dumps_app, fmap_app, concat_app. Qed.

(** X4. Video and metadata stay in step: while the processing thread loops,
    the records already written to metadata files plus the records pending in
    [metadata_list] are as many as the frames written to video; once it has
    returned, every frame written to video has its record in a metadata
    file. *)
Theorem one_record_per_frame opened_ok now events :
  match processing (run events (boot opened_ok now)) with
  | Looping l =>
      (length (records_dumped (trace (world (run events (boot opened_ok now)))))
       + length (metadata_list l))%nat
      = length (written (trace (world (run events (boot opened_ok now)))))
  | Returned =>
      length (records_dumped (trace (world (run events (boot opened_ok now)))))
      = length (written (trace (world (run events (boot opened_ok now)))))
  | Waiting => False
  end.
Proof.
  apply (reachable_ind
           (λ _ s, match processing s with
                   | Looping l =>
                       (length (records_dumped (trace (world s)))
                        + length (metadata_list l))%nat
                       = length (written (trace (world s)))
                   | Returned =>
                       length (records_dumped (trace (world s)))
                       = length (written (trace (world s)))
                   | Waiting => False
                   end)).
  - by destruct opened_ok.
  - clear events. intros events s e _ (Hwf & _) IH.
    apply (step_elim
             (λ s', match processing s' with
                    | Looping l =>
                        (length (records_dumped (trace (world s')))
                         + length (metadata_list l))%nat
                        = length (written (trace (world s')))
                    | Returned =>
                        length (records_dumped (trace (world s')))
                        = length (written (trace (world s')))
                    | Waiting => False
                    end)); [done|done|..].
    + intros sig _. cbn [in_world world processing logged cancelled trace].
      rewrite records_dumped_app, written_app, !app_nil_r. done.
    + intros _ _. cbn [world processing logged trace].
      rewrite records_dumped_app, written_app, !app_nil_r. done.
    + intros _ _ _. cbn [in_world world processing logged trace].
      rewrite records_dumped_app, written_app, !app_nil_r. done.
    + intros frame _ _ _. done.
    + intros l _ Hp. rewrite Hp in IH. cbn [world processing logged trace].
      rewrite records_dumped_app, written_app, !length_app.
      unfold records_dumped at 2. cbn. rewrite app_nil_r. lia.
    + intros l frame rest t1 t2 t3 _ _ Hp _ _. rewrite Hp in IH.
      cbn [world processing logged with_baseline with_buffer trace appended
             metadata_list].
      rewrite records_dumped_app, written_app, !length_app.
      unfold records_dumped at 2. cbn. lia.
    + intros l frame rest t1 t2 t3 _ _ Hp _ _. rewrite Hp in IH.
      cbn [world processing logged with_baseline with_buffer trace segment_at
             metadata_list].
      rewrite records_dumped_app, written_app, !length_app.
      unfold records_dumped at 2. cbn. rewrite app_nil_r, length_app. cbn. lia.
Qed.

(** X5. Every segment's two files share their base name: each metadata file
    written is [METADATA_DIR/<stamp>.json] for a time whose video file
    [VIDEO_DIR/<stamp>.mp4] was opened in the run, and while the processing
    thread loops its paths and its open writer are those of [current_time]. *)
Theorem companion_files_share_stamp opened_ok now events :
  (∀ path records,
     (path, records) ∈ dumps (trace (world (run events (boot opened_ok now)))) →
     ∃ t, path = metadata_file t
        ∧ VideoWriter (video_file t) ∈ trace (world (run events (boot opened_ok now))))
  ∧ match processing (run events (boot opened_ok now)) with
    | Looping l =>
        video_path l = video_file (current_time l)
        ∧ metadata_path l = metadata_file (current_time l)
        ∧ out l = video_file (current_time l)
        ∧ VideoWriter (video_file (current_time l))
          ∈ trace (world (run events (boot opened_ok now)))
    | _ => True
    end.
Proof.
  apply (reachable_ind
           (λ _ s,
              (∀ path records,
                 (path, records) ∈ dumps (trace (world s)) →
                 ∃ t, path = metadata_file t
                    ∧ VideoWriter (video_file t) ∈ trace (world s))
              ∧ match processing s with
                | Looping l =>
                    video_path l = video_file (current_time l)
                    ∧ metadata_path l = metadata_file (current_time l)
                    ∧ out l = video_file (current_time l)
                    ∧ VideoWriter (video_file (current_time l)) ∈ trace (world s)
                | _ => True
                end)).
  - split.
    + intros path records. by destruct opened_ok; intros ?%elem_of_nil.
    + destruct opened_ok; cbn; repeat split; try done;
        repeat first [apply list_elem_of_here|apply list_elem_of_further].
  - clear events. intros events s e _ (Hwf & _) (Hd & Hl).
    assert (∀ evs path records,
              (path, records) ∈ dumps (trace (world s)) ++ dumps evs →
              (path, records) ∈ dumps evs
              ∨ ∃ t, path = metadata_file t
                   ∧ VideoWriter (video_file t) ∈ trace (world s) ++ evs) as Hold.
    { intros evs path records [Hin|Hin]%elem_of_app; [right|by left].
      destruct (Hd _ _ Hin) as (t & -> & Ht). exists t. split; [done|].
      apply elem_of_app. by left. }
    apply (step_elim
             (λ s',
                (∀ path records,
                   (path, records) ∈ dumps (trace (world s')) →
                   ∃ t, path = metadata_file t
                      ∧ VideoWriter (video_file t) ∈ trace (world s'))
                ∧ match processing s' with
                  | Looping l =>
                      video_path l = video_file (current_time l)
                      ∧ metadata_path l = metadata_file (current_time l)
                      ∧ out l = video_file (current_time l)
                      ∧ VideoWriter (video_file (current_time l)) ∈ trace (world s')
                  | _ => True
                  end)); [done|done|..].
    + intros sig _. cbn [in_world world processing logged cancelled trace]. split.
      * intros path records Hin. rewrite dumps_app in Hin.
        destruct (Hold _ _ _ Hin) as [Hn|Ht]; [|done].
        cbv [dumps omap is_dump signal_message WARNING list_omap] in Hn.
        by apply elem_of_nil in Hn.
      * destruct (processing s); [|done..]. destruct Hl as (? & ? & ? & ?).
        repeat split; try done. apply elem_of_app. by left.
    + intros _ _. cbn [world processing logged trace]. split.
      * intros path records Hin. rewrite dumps_app in Hin.
        destruct (Hold _ _ _ Hin) as [Hn|Ht]; [|done].
        cbv [dumps omap is_dump signal_message WARNING list_omap] in Hn.
        by apply elem_of_nil in Hn.
      * destruct (processing s); [|done..]. destruct Hl as (? & ? & ? & ?).
        repeat split; try done. apply elem_of_app. by left.
    + intros _ _ _. cbn [in_world world processing logged trace]. split.
      * intros path records Hin. rewrite dumps_app in Hin.
        destruct (Hold _ _ _ Hin) as [Hn|Ht]; [|done].
        cbv [dumps omap is_dump signal_message WARNING list_omap] in Hn.
        by apply elem_of_nil in Hn.
      * destruct (processing s); [|done..]. destruct Hl as (? & ? & ? & ?).
        repeat split; try done. apply elem_of_app. by left.
    + intros frame _ _ _. done.
    + intros l _ Hp. rewrite Hp in Hl. destruct Hl as (Hv & Hm & Ho & Hin).
      cbn [world processing logged trace]. split; [|done].
      intros path records Hin'. rewrite dumps_app in Hin'.
      destruct (Hold _ _ _ Hin') as [Hn|Ht]; [|done].
      cbn in Hn. apply list_elem_of_singleton in Hn as [= -> ->].
      exists (current_time l). split; [done|]. apply elem_of_app. by left.
    + intros l frame rest t1 t2 t3 _ _ Hp _ _. rewrite Hp in Hl.
      destruct Hl as (Hv & Hm & Ho & Hin).
      cbn [world processing logged with_baseline with_buffer trace appended
             current_time video_path metadata_path out]. split.
      * intros path records Hin'. rewrite dumps_app in Hin'.
        destruct (Hold _ _ _ Hin') as [Hn|Ht]; [|done].
        cbv [dumps omap is_dump signal_message WARNING list_omap] in Hn.
        by apply elem_of_nil in Hn.
      * repeat split; try done. apply elem_of_app. by left.
    + intros l frame rest t1 t2 t3 _ _ Hp _ _. rewrite Hp in Hl.
      destruct Hl as (Hv & Hm & Ho & Hin).
      cbn [world processing logged with_baseline with_buffer trace segment_at
             current_time video_path metadata_path out]. split.
      * intros path records Hin'. rewrite dumps_app in Hin'.
        destruct (Hold _ _ _ Hin') as [Hn|Ht]; [|done].
        cbn in Hn. apply list_elem_of_singleton in Hn as [= -> ->].
        exists (current_time l). split; [done|]. apply elem_of_app. by left.
      * repeat split; try done. apply elem_of_app. right.
        repeat first [apply list_elem_of_here|apply list_elem_of_further].
Qed.

(** Once [shutdown_event] is set, a step leaves it set and touches neither
    the buffer, nor the baseline, nor the video. *)
Lemma cancelled_step e s :
  Queue.wf (frame_buffer (world s)) →
  shutdown_event (world s) = true →
  shutdown_event (world (step e s)) = true
  ∧ frame_buffer (world (step e s)) = frame_buffer (world s)
  ∧ previous_gray (world (step e s)) = previous_gray (world s)
  ∧ written (trace (world (step e s))) = written (trace (world s)).
Proof.
  intros Hwf Hs.
  apply (step_elim
           (λ s', shutdown_event (world s') = true
                  ∧ frame_buffer (world s') = frame_buffer (world s)
                  ∧ previous_gray (world s') = previous_gray (world s)
                  ∧ written (trace (world s')) = written (trace (world s))));
    try done; try congruence.
  - intros sig _. cbn [in_world world logged cancelled frame_buffer shutdown_event
                         previous_gray trace].
    by rewrite written_app, app_nil_r.
  - intros _ _. cbn [world logged frame_buffer shutdown_event previous_gray trace].
    by rewrite written_app, app_nil_r.
  - intros l _ _. cbn [world logged frame_buffer shutdown_event previous_gray trace].
    by rewrite written_app, app_nil_r.
Qed.

Lemma capture_returned_stays e s :
  capture s = Returned → capture (step e s) = Returned.
Proof.
  intros Hc. destruct e as [sig|r|t1 t2 t3].
  - by rewrite step_signal.
  - by rewrite step_capture_done by (by rewrite Hc).
  - destruct (processing s) as [l| |] eqn:Hp.
    + by rewrite (step_process _ _ _ l).
    + by rewrite step_process_done by (intros l; by rewrite Hp).
    + by rewrite step_process_done by (intros l; by rewrite Hp).
Qed.

(** X7. After cancellation each thread returns at its next pass: whatever
    else happens, as soon as the capture loop and the processing loop have
    each made a pass, both threads have returned. *)
Theorem workers_return_after_cancellation opened_ok now before after s :
  s = run before (boot opened_ok now) →
  shutdown_event (world s) = true →
  (∃ r, Capture r ∈ after) →
  (∃ t1 t2 t3, Process t1 t2 t3 ∈ after) →
  capture (run after s) = Returned ∧ processing (run after s) = Returned.
Proof.
  intros -> Hs.
  assert ((capture (run after (run before (boot opened_ok now))) = Returned
           ∨ ∀ r, Capture r ∉ after)
          ∧ (processing (run after (run before (boot opened_ok now))) = Returned
             ∨ ∀ t1 t2 t3, Process t1 t2 t3 ∉ after)
          ∧ shutdown_event (world (run after (run before (boot opened_ok now)))) = true)
    as (Hc & Hp & _).
  { induction after as [|e after IH] using rev_ind.
    - split; [right; intros r; apply not_elem_of_nil|].
      split; [right; intros t1 t2 t3; apply not_elem_of_nil|done].
    - destruct IH as (IHc & IHp & IHs). rewrite run_snoc.
      set (s1 := run after (run before (boot opened_ok now))) in *.
      assert (invariant s1) as (Hwf & Hnw & Hseg).
      { unfold s1. rewrite <- run_app. apply reachable_invariant. }
      split; [|split].
      + destruct IHc as [IHc|IHc]; [left; by apply capture_returned_stays|].
        destruct e as [sig|r|t1 t2 t3].
        * right. intros r [Hin|[=]%list_elem_of_singleton]%elem_of_app. by apply (IHc r).
        * left. destruct (capture s1) as [[]| |] eqn:Hcs; [|done|].
          -- rewrite step_capture by done. by rewrite capture_iteration_stop.
          -- by rewrite step_capture_done by (by rewrite Hcs).
        * right. intros r [Hin|[=]%list_elem_of_singleton]%elem_of_app. by apply (IHc r).
      + destruct IHp as [IHp|IHp]; [left; by apply returned_stays|].
        destruct e as [sig|r|t1 t2 t3].
        * right. intros ??? [Hin|[=]%list_elem_of_singleton]%elem_of_app.
          by eapply IHp.
        * right. intros ??? [Hin|[=]%list_elem_of_singleton]%elem_of_app.
          by eapply IHp.
        * left. destruct (processing s1) as [l| |] eqn:Hps; [|done|].
          -- rewrite (step_process _ _ _ l) by done. by rewrite process_iteration_stop.
          -- by rewrite step_process_done by (intros l; by rewrite Hps).
      + by apply cancelled_step. }
  intros [r Hr] (t1 & t2 & t3 & Ht). split.
  - destruct Hc as [|Hc]; [done|]. by destruct (Hc r).
  - destruct Hp as [|Hp]; [done|]. by destruct (Hp t1 t2 t3).
Qed.

End Reachable.

(** ** [main] and the two threads *)

Section Orchestrator.
Context `{External}.
Implicit Types (w : World) (s : System) (p : Program).

Lemma run_program_snoc events e p :
  run_program (events ++ [e]) p = program_step e (run_program events p).
Proof. unfold run_program. by rewrite foldl_snoc. Qed.

Lemma signal_notice_not_complete sig : signal_message sig ≠ COMPLETE.
Proof. intros [=]. Qed.

(** What a step of the threads adds to the trace: never the closing message
    of [main], and only signal notices once both threads have returned. *)
Lemma step_extends_trace e s :
  Queue.wf (frame_buffer (world s)) →
  ∃ evs, trace (world (step e s)) = trace (world s) ++ evs
       ∧ (COMPLETE ∉ evs)
       ∧ (capture s = Returned → processing s = Returned →
          Forall is_signal_notice evs).
Proof.
  intros Hwf.
  apply (step_elim
           (λ s', ∃ evs, trace (world s') = trace (world s) ++ evs
                       ∧ (COMPLETE ∉ evs)
                       ∧ (capture s = Returned → processing s = Returned →
                          Forall is_signal_notice evs))); [done|..].
  - exists []. rewrite app_nil_r. split; [done|]. split; [apply not_elem_of_nil|done].
  - intros sig _. eexists [_]. split; [done|]. split.
    + intros ?%list_elem_of_singleton. by eapply signal_notice_not_complete.
    + intros _ _. repeat constructor. by exists sig.
  - intros _ Hc. eexists [_; _]. split; [done|]. split; [|congruence].
    by intros [[=]|[[=]|[]%elem_of_nil]%elem_of_cons]%elem_of_cons.
  - intros _ _ Hc. eexists [_]. split; [done|]. split; [|congruence].
    by intros [=]%list_elem_of_singleton.
  - intros frame _ _ Hc. exists []. cbn. rewrite app_nil_r.
    split; [done|]. split; [apply not_elem_of_nil|congruence].
  - intros l _ Hp. eexists [_; _; _]. split; [done|]. split; [|congruence].
    by intros [[=]|[[=]|[[=]|[]%elem_of_nil]%elem_of_cons]%elem_of_cons]%elem_of_cons.
  - intros l frame rest t1 t2 t3 _ _ Hp _ _. eexists [_]. split; [done|].
    split; [|congruence]. by intros [=]%list_elem_of_singleton.
  - intros l frame rest t1 t2 t3 _ _ Hp _ _. eexists [_; _; _; _]. split; [done|].
    split; [|congruence].
    by intros [[=]|[[=]|[[=]|[[=]|[]%elem_of_nil]%elem_of_cons]%elem_of_cons]%elem_of_cons]%elem_of_cons.
Qed.

Lemma launch_ok opened_ok now : main_ok (launch opened_ok now).
Proof.
  split.
  - unfold invariant, launch, Queue.wf, Queue.qsize, BUFFER_SIZE.
    by destruct opened_ok.
  - destruct opened_ok; cbn.
    + by intros [[=]|[[=]|[]%elem_of_nil]%elem_of_cons]%elem_of_cons.
    + by intros [[=]|[[=]|[[=]|[]%elem_of_nil]%elem_of_cons]%elem_of_cons]%elem_of_cons.
Qed.

Lemma invariant_in_world (f : World → World) s :
  frame_buffer (f (world s)) = frame_buffer (world s) →
  (∃ evs, trace (f (world s)) = trace (world s) ++ evs ∧ Forall quiet evs) →
  invariant s → invariant (in_world f s).
Proof.
  intros Hb (evs & Htr & Hq) (Hwf & Hc & Hp). unfold invariant, in_world.
  cbn [world capture processing]. rewrite Hb, Htr. split; [done|]. split; [done|].
  destruct (processing s); [|done..]. by apply segment_ok_quiet.
Qed.

Lemma program_step_ok e p : main_ok p → main_ok (program_step e p).
Proof.
  intros [Hinv Hmain]. destruct e as [e|ki].
  - (* a step of the threads *)
    pose proof Hinv as (Hwf & _ & _).
    destruct (step_extends_trace e (system p) Hwf) as (evs & Htr & Hnc & Hsig).
    assert ((COMPLETE ∉ trace (world (system p))) →
            (COMPLETE ∉ trace (world (step e (system p))))) as Hfresh.
    { intros Hn. rewrite Htr. intros [|]%elem_of_app; done. }
    split; [by apply step_invariant|]. cbn [program_step main_thread system].
    destruct (main_thread p).
    + by apply Hfresh.
    + destruct Hmain as [Hs Hn]. split; [by apply cancelled_step|by apply Hfresh].
    + destruct Hmain as (Hs & Hc & Hn).
      split; [by apply cancelled_step|]. split; [by apply capture_returned_stays|].
      by apply Hfresh.
    + destruct Hmain as (Hs & Hc & Hp & pre & post & Hpre & Hnpre & Hpost).
      split; [by apply cancelled_step|]. split; [by apply capture_returned_stays|].
      split; [by apply returned_stays|].
      exists pre, (post ++ evs). rewrite Htr, Hpre, <- app_assoc. split; [done|].
      split; [done|]. apply Forall_app. split; [done|by apply Hsig].
  - (* a pass of [main] *)
    unfold program_step, main_pass.
    destruct (main_thread p) eqn:Hm.
    + destruct (shutdown_event (world (system p))) eqn:Hs.
      * split; [done|]. cbn [main_thread system]. done.
      * destruct ki; [|split; [done|by rewrite Hm]].
        split; [|done]. cbn [system]. apply invariant_in_world; [done| |done].
        exists []. by rewrite app_nil_r.
    + destruct Hmain as [Hs Hn].
      destruct (capture (system p)) eqn:Hc;
        try (split; [done|rewrite Hm; by rewrite ?Hc]).
      split; [done|]. cbn [main_thread system]. done.
    + destruct Hmain as (Hs & Hc & Hn).
      destruct (processing (system p)) eqn:Hp;
        try (split; [done|rewrite Hm; by rewrite ?Hp]).
      split.
      * cbn [system]. apply invariant_in_world; [done| |done].
        eexists [_]. split; [done|]. by repeat constructor.
      * cbn [main_thread system in_world world capture processing logged
               shutdown_event trace].
        split; [done|]. split; [done|]. split; [done|].
        exists (trace (world (system p))), []. done.
    + split; [done|]. by rewrite Hm.
Qed.

Lemma run_program_ok opened_ok now events :
  main_ok (run_program events (launch opened_ok now)).
Proof.
  induction events as [|e events IH] using rev_ind; [apply launch_ok|].
  rewrite run_program_snoc. by apply program_step_ok.
Qed.

(** X9. [main] prints "System shutdown complete." only when it has joined
    both threads: the message is in the trace exactly when [main] has
    exited; then both threads have returned, the message occurs once, every
    frame, metadata file and writer release precedes it, and only signal
    notices can follow it. *)
Theorem completion_follows_both_joins opened_ok now events :
  (COMPLETE ∈ trace (world (system (run_program events (launch opened_ok now))))
   ↔ main_thread (run_program events (launch opened_ok now)) = Exited)
  ∧ (main_thread (run_program events (launch opened_ok now)) = Exited →
     capture (system (run_program events (launch opened_ok now))) = Returned
     ∧ processing (system (run_program events (launch opened_ok now))) = Returned
     ∧ ∃ pre post,
         trace (world (system (run_program events (launch opened_ok now))))
         = pre ++ COMPLETE :: post
         ∧ (COMPLETE ∉ pre)
         ∧ Forall is_signal_notice post).
Proof.
  destruct (run_program_ok opened_ok now events) as [_ Hmain].
  destruct (main_thread (run_program events (launch opened_ok now))).
  - split; [|done]. split; [done|done].
  - destruct Hmain as [_ Hn]. split; [|done]. split; [done|done].
  - destruct Hmain as (_ & _ & Hn). split; [|done]. split; [done|done].
  - destruct Hmain as (_ & Hc & Hp & pre & post & Htr & Hn & Hpost). split.
    + split; [done|]. intros _. rewrite Htr. apply elem_of_app. right.
      apply list_elem_of_here.
    + intros _. split; [done|]. split; [done|]. by exists pre, post.
Qed.

(** X10. A signal leads to a complete shutdown: from any state of any run,
    once a signal has been delivered, a pass of the capture loop, a pass of
    the processing loop and three passes of [main] bring [main] to its
    exit, with both threads returned. *)
Theorem signal_leads_to_exit opened_ok now events sig r t1 t2 t3 k1 k2 k3 :
  main_thread
    (run_program
       (events ++ [Worker (Signal sig); Worker (Capture r); Worker (Process t1 t2 t3);
                   Main k1; Main k2; Main k3])
       (launch opened_ok now))
  = Exited.
Proof.
  unfold run_program. rewrite foldl_app.
  fold (run_program events (launch opened_ok now)).
  destruct (run_program_ok opened_ok now events) as [Hinv Hmain].
  set (p := run_program events (launch opened_ok now)) in *.
  set (s1 := step (Signal sig) (system p)).
  set (s2 := step (Capture r) s1).
  set (s3 := step (Process t1 t2 t3) s2).
  assert (invariant s1) as Hi1 by by apply step_invariant.
  assert (invariant s2) as Hi2 by by apply step_invariant.
  assert (shutdown_event (world s1) = true) as Hs1 by (unfold s1; by rewrite step_signal).
  assert (shutdown_event (world s2) = true) as Hs2.
  { apply cancelled_step; [by destruct Hi1|done]. }
  assert (shutdown_event (world s3) = true) as Hs3.
  { apply cancelled_step; [by destruct Hi2|done]. }
  assert (capture s2 = Returned) as Hc2.
  { unfold s2. destruct Hi1 as (_ & Hnw & _).
    destruct (capture s1) as [[]| |] eqn:Hc; [|done|].
    - rewrite step_capture by done. by rewrite capture_iteration_stop.
    - by rewrite step_capture_done by (by rewrite Hc). }
  assert (capture s3 = Returned) as Hc3 by by apply capture_returned_stays.
  assert (processing s3 = Returned) as Hp3.
  { unfold s3. destruct Hi2 as (_ & _ & Hseg).
    destruct (processing s2) as [l| |] eqn:Hp; [|done|].
    - rewrite (step_process _ _ _ l) by done. by rewrite process_iteration_stop.
    - by rewrite step_process_done by (intros l; by rewrite Hp). }
  cbn [foldl program_step system main_thread]. fold s1 s2 s3.
  unfold main_pass. cbn [system main_thread].
  destruct (main_thread p);
    cbn [system main_thread in_world world capture processing logged shutdown_event];
    rewrite ?Hs3, ?Hc3, ?Hp3;
    cbn [system main_thread in_world world capture processing logged shutdown_event];
    rewrite ?Hs3, ?Hc3, ?Hp3;
    cbn [system main_thread in_world world capture processing logged shutdown_event];
    rewrite ?Hs3, ?Hc3, ?Hp3; done.
Qed.

End Orchestrator.

(** ** More on motion detection *)

Lemma changed_pixels_sym {n} (a b : vec Z n) cutoff :
  changed_pixels a b cutoff = changed_pixels b a cutoff.
Proof.
  unfold changed_pixels. f_equal. apply (f_equal length), list_filter_iff.
  intros i. lia.
Qed.

Lemma changed_pixels_bound {n} (a b : vec Z n) cutoff :
  0 ≤ changed_pixels a b cutoff ≤ Z.of_nat n.
Proof.
  unfold changed_pixels.
  pose proof (length_filter (λ i : fin n, cutoff < Z.abs (a !!! i - b !!! i))
                (enum (fin n))) as Hle.
  pose proof (fin_card n) as Hcard. unfold card in Hcard. lia.
Qed.

Lemma changed_pixels_none {n} (a b : vec Z n) cutoff :
  (∀ i, Z.abs (a !!! i - b !!! i) ≤ cutoff) → changed_pixels a b cutoff = 0.
Proof.
  intros Hsmall. unfold changed_pixels. generalize (enum (fin n)). intros l.
  induction l as [|i l IH]; [done|].
  rewrite filter_cons_False; [done|]. specialize (Hsmall i). lia.
Qed.

Section MoreMotion.
Context `{External}.
Implicit Types (w : World) (frame : Frame).

(** X11. The classification does not depend on the direction of the change:
    two frames give the same result in either order. *)
Theorem motion_is_symmetric w frame1 frame2 :
  motion_between (filtered frame1) (filtered frame2)
  = motion_between (filtered frame2) (filtered frame1)
  ∧ fst (detect_motion frame2 (snd (detect_motion frame1 w)))
    = fst (detect_motion frame1 (snd (detect_motion frame2 w))).
Proof.
  assert (∀ a b : Gray, motion_between a b = motion_between b a) as Hsym.
  { intros a b. unfold motion_between.
    by rewrite !countNonZero_changed, changed_pixels_sym. }
  split; [apply Hsym|]. rewrite !detect_motion_eq. cbn [fst snd previous_gray].
  apply Hsym.
Qed.

(** X12. Changes within the cutoff are never motion: if no pixel of the
    smoothed frame differs from the baseline by more than 25, the result is
    false, however many pixels changed. *)
Theorem small_changes_are_not_motion w frame prev :
  previous_gray w = Some prev →
  (∀ i, Z.abs (prev !!! i - filtered frame !!! i) ≤ 25) →
  fst (detect_motion frame w) = false.
Proof.
  intros Hp Hsmall. rewrite detect_motion_eq, Hp. cbn [fst].
  apply not_true_iff_false. rewrite motion_between_iff, changed_pixels_none by done.
  lia.
Qed.

(** X13. The threshold is a fixed number of pixels, 5% of the configured
    640 x 480, not of the frame at hand: on frames of at most 15360 pixels
    motion is never reported, whatever the frames show. *)
Theorem small_frames_never_show_motion w frame :
  Z.of_nat pixels ≤ 15360 →
  fst (detect_motion frame w) = false.
Proof.
  intros Hpix. rewrite detect_motion_eq. cbn [fst].
  destruct (previous_gray w) as [prev|]; [|done].
  apply not_true_iff_false. rewrite motion_between_iff.
  pose proof (changed_pixels_bound prev (filtered frame) 25). lia.
Qed.

End MoreMotion.

(** ** More on the rotation test *)

Lemma rotation_due_add_days now start k :
  rotation_due (now + k * DAY) start = rotation_due now start.
Proof.
  unfold rotation_due, datetime_sub, timedelta_of, DAY, HOUR, SECOND. cbn [seconds].
  replace (now + k * (24 * (3600 * 1000000)) - start)
    with (now - start + (k * 86400) * 1000000) by lia.
  rewrite Z.div_add by lia. by rewrite Z_mod_plus_full.
Qed.

(** X14. Within a day of the segment's start the test is the intended one:
    it holds exactly when at least one hour has elapsed. *)
Theorem rotation_on_time_within_a_day now start :
  0 ≤ now - start < DAY →
  rotation_due now start = true ↔ HOUR ≤ now - start.
Proof. apply rotation_due_within_a_day. Qed.

(** X15. The test sees only the time of day of the elapsed time: whole days
    added to the clock reading, or taken from it, do not change it. *)
Theorem rotation_due_ignores_whole_days now start k :
  rotation_due (now + k * DAY) start = rotation_due now start
  ∧ rotation_due (now - k * DAY) start = rotation_due now start.
Proof.
  split; [apply rotation_due_add_days|].
  replace (now - k * DAY) with (now + (- k) * DAY) by lia.
  apply rotation_due_add_days.
Qed.

(** X16. A clock set back triggers a rotation: when the reading is earlier
    than the segment's start by no more than 23 hours, the test holds. *)
Theorem clock_set_back_rotates now start :
  - (DAY - HOUR) ≤ now - start < 0 →
  rotation_due now start = true.
Proof.
  intros Hd. rewrite <- (rotation_due_add_days now start 1).
  apply rotation_due_within_a_day; unfold DAY, HOUR, SECOND in *; lia.
Qed.

(** ** More on the buffer *)

(** X17. Below its capacity the buffer loses nothing: frames inserted while
    there is room (or into an unbounded queue) are all kept, behind those
    already there, and taking as many frames out of an initially empty
    buffer returns exactly the frames put, in order. *)
Theorem no_loss_below_capacity {A} (q0 : Queue.t A) (frames : list A) :
  (0 < Queue.maxsize q0 →
   Z.of_nat (length (Queue.queue q0) + length frames) ≤ Queue.maxsize q0) →
  enqueue_all frames q0
  = Done (Queue.mk (Queue.maxsize q0) (Queue.queue q0 ++ frames))
  ∧ (Queue.queue q0 = [] →
     ∃ q, enqueue_all frames q0 = Done q
        ∧ take_n (length frames) q = Done (frames, Queue.mk (Queue.maxsize q0) [])).
Proof.
  intros Hroom.
  assert (enqueue_all frames q0
          = Done (Queue.mk (Queue.maxsize q0) (Queue.queue q0 ++ frames))) as Hall.
  { revert q0 Hroom. induction frames as [|f frames IH]; intros q0 Hroom.
    - simpl. rewrite app_nil_r. by destruct q0.
    - assert (Queue.full q0 = false) as Hnf.
      { unfold Queue.full, Queue.qsize. apply andb_false_iff.
        destruct (decide (0 < Queue.maxsize q0)) as [Hpos|Hnpos].
        - right. apply Z.leb_gt. specialize (Hroom Hpos). simpl in Hroom. lia.
        - left. apply Z.ltb_ge. lia. }
      simpl. rewrite enqueue_done, Hnf.
      + rewrite IH; simpl; [by rewrite <- app_assoc|].
        intros Hpos. specialize (Hroom Hpos). rewrite length_app. simpl in *. lia.
      + intros Hpos. specialize (Hroom Hpos). unfold Queue.qsize. simpl in Hroom. lia. }
  split; [done|]. intros Hempty. eexists. split; [done|].
  rewrite Hempty. simpl. apply (take_n_all (Queue.mk _ _)).
Qed.

(** ** When the processing thread keeps pace *)

Section Lockstep.
Context `{External}.

Lemma lockstep_from s l steps :
  capture s = Looping tt → processing s = Looping l →
  shutdown_event (world s) = false →
  Queue.queue (frame_buffer (world s)) = [] →
  written (trace (world (run (lockstep steps) s)))
  = written (trace (world s)) ++ steps.*1
  ∧ Queue.queue (frame_buffer (world (run (lockstep steps) s))) = []
  ∧ shutdown_event (world (run (lockstep steps) s)) = false
  ∧ capture (run (lockstep steps) s) = Looping tt
  ∧ ∃ l', processing (run (lockstep steps) s) = Looping l'.
Proof.
  revert s l. induction steps as [|[frame [[t1 t2] t3]] steps IH];
    intros s l Hc Hp Hs Hq.
  - cbn. rewrite app_nil_r. repeat split; eauto.
  - change (run (lockstep ((frame, (t1, t2, t3)) :: steps)) s)
      with (run (lockstep steps)
              (step (Process t1 t2 t3) (step (Capture (Some frame)) s))).
    assert (Queue.wf (frame_buffer (world s))) as Hwf.
    { unfold Queue.wf, Queue.qsize. rewrite Hq. simpl. lia. }
    assert (Queue.full (frame_buffer (world s)) = false) as Hnf.
    { unfold Queue.full, Queue.qsize. rewrite Hq. simpl.
      destruct (0 <? Queue.maxsize (frame_buffer (world s))) eqn:E; [|done].
      apply Z.ltb_lt in E. simpl. apply Z.leb_gt. lia. }
    set (s1 := step (Capture (Some frame)) s).
    assert (s1 = in_world (λ w, with_buffer (pushed frame (frame_buffer w)) w) s) as Hs1.
    { unfold s1. rewrite step_capture, capture_iteration_frame by done.
      unfold in_world. by rewrite Hc. }
    assert (Queue.queue (frame_buffer (world s1)) = [frame]) as Hq1.
    { rewrite Hs1. cbn. by rewrite Hnf, Hq. }
    assert (shutdown_event (world s1) = false) as Hsh1 by by rewrite Hs1.
    assert (processing s1 = Looping l) as Hp1 by by rewrite Hs1.
    assert (capture s1 = Looping tt) as Hc1 by by rewrite Hs1.
    assert (written (trace (world s1)) = written (trace (world s))) as Hw1
      by by rewrite Hs1.
    set (s2 := step (Process t1 t2 t3) s1).
    assert (Queue.queue (frame_buffer (world s2)) = []
            ∧ shutdown_event (world s2) = false
            ∧ capture s2 = Looping tt
            ∧ (∃ l', processing s2 = Looping l')
            ∧ written (trace (world s2)) = written (trace (world s1)) ++ [frame])
      as (Hq2 & Hsh2 & Hc2 & [l2 Hp2] & Hw2).
    { unfold s2. rewrite (step_process _ _ _ l) by done.
      rewrite (process_iteration_frame _ _ _ _ _ frame []) by done.
      destruct (rotation_due t2 (current_time l));
        cbn [fst snd world capture processing frame_buffer shutdown_event trace
               Queue.queue];
        rewrite written_app; eauto 10. }
    destruct (IH s2 l2 Hc2 Hp2 Hsh2 Hq2) as (IHw & IHq & IHs & IHc & IHp).
    rewrite IHw, Hw2, Hw1, <- app_assoc. done.
Qed.

(** X18. When the processing thread keeps pace with the camera, nothing is
    lost: if each frame is processed before the next one is captured, then
    whatever the clock reads (and however many rotations happen) the frames
    written to video are exactly the frames captured, in order; the buffer is
    empty again and both threads are still in their loops. *)
Theorem lockstep_records_every_frame now steps :
  written (trace (world (run (lockstep steps) (boot true now)))) = steps.*1
  ∧ offered (lockstep steps) = steps.*1
  ∧ Queue.queue (frame_buffer (world (run (lockstep steps) (boot true now)))) = []
  ∧ shutdown_event (world (run (lockstep steps) (boot true now))) = false
  ∧ capture (run (lockstep steps) (boot true now)) = Looping tt
  ∧ ∃ l, processing (run (lockstep steps) (boot true now)) = Looping l.
Proof.
  destruct (lockstep_from (boot true now) (segment_at now) steps)
    as (Hw & Hq & Hs & Hc & Hp); try done.
  split; [done|]. split; [|done]. clear.
  induction steps as [|[frame [[t1 t2] t3]] steps IH]; [done|].
  cbn. f_equal. apply IH.
Qed.

End Lockstep.

(** ** When the processing thread stalls *)

Section Burst.
Context `{External}.

Lemma burst_from s frames :
  capture s = Looping tt →
  shutdown_event (world s) = false →
  Queue.wf (frame_buffer (world s)) →
  0 < Queue.maxsize (frame_buffer (world s)) →
  run (burst frames) s
  = in_world
      (with_buffer
         (Queue.mk (Queue.maxsize (frame_buffer (world s)))
            (last_n (Z.to_nat (Queue.maxsize (frame_buffer (world s))))
               (Queue.queue (frame_buffer (world s)) ++ frames))))
      s.
Proof.
  revert s. induction frames as [|frame frames IH]; intros s Hc Hs Hwf Hpos.
  - cbn. rewrite app_nil_r, last_n_all by by apply wf_qsize.
    destruct s as [[[] ? ? ?] ? ?]. done.
  - change (run (burst (frame :: frames)) s)
      with (run (burst frames) (step (Capture (Some frame)) s)).
    pose proof (enqueue_wf (frame_buffer (world s)) frame) as Hwf'.
    pose proof (enqueue_last_n (frame_buffer (world s)) frame Hwf Hpos) as He.
    rewrite enqueue_done in He by done. injection He as He.
    rewrite step_capture, capture_iteration_frame by done.
    cbn [fst snd]. rewrite He. rewrite IH; cbn [world capture frame_buffer
                                                  shutdown_event Queue.maxsize
                                                  Queue.queue]; try done.
    + unfold in_world, with_buffer. cbn [world capture processing frame_buffer
                                           shutdown_event previous_gray trace].
      by rewrite last_n_app_last_n, <- app_assoc, Hc.
    + eapply Hwf'; [done|]. rewrite enqueue_done by done. by rewrite He.
Qed.

(** X19. When the processing thread stalls, the camera overwrites the oldest
    frames: after any burst of captured frames with no processing in between
    the buffer holds exactly the most recent 128 of them, in order, nothing
    has been written, and the capture thread is still in its loop. *)
Theorem stalled_consumer_keeps_latest_128 now frames :
  Queue.queue (frame_buffer (world (run (burst frames) (boot true now))))
  = last_n 128 frames
  ∧ trace (world (run (burst frames) (boot true now)))
    = trace (world (boot true now))
  ∧ capture (run (burst frames) (boot true now)) = Looping tt.
Proof.
  rewrite burst_from; [done|done|done| |done].
  unfold Queue.wf, Queue.qsize. simpl. unfold BUFFER_SIZE. lia.
Qed.

End Burst.

(** ** Signals during a pass, and threads starting in any order *)

Section FinerRuns.
Context `{External}.
Implicit Types (w : World) (f : Fine) (a : action) (tr : list effect).

Lemma fine_run_snoc events e f :
  fine_run (events ++ [e]) f = fine_step e (fine_run events f).
Proof. unfold fine_run. by rewrite foldl_snoc. Qed.

Lemma written_with_notice n sig tr :
  written (take n tr ++ [signal_message sig] ++ drop n tr) = written tr.
Proof.
  rewrite !written_app. change (written [signal_message sig]) with (@nil Frame).
  rewrite app_nil_l, <- written_app. by rewrite take_drop.
Qed.

Lemma dumps_with_notice n sig tr :
  dumps (take n tr ++ [signal_message sig] ++ drop n tr) = dumps tr.
Proof.
  rewrite !dumps_app. change (dumps [signal_message sig]) with (@nil (string * list MetadataRecord)).
  rewrite app_nil_l, <- dumps_app. by rewrite take_drop.
Qed.

Lemma capture_start_eq opened w :
  capture_start opened w
  = if opened then (Looping tt, w)
    else (Returned, cancelled (logged [Print "ERROR: Unable to open webcam."] w)).
Proof. by destruct opened. Qed.

Lemma process_start_eq now w :
  process_start now w
  = (Looping (segment_at now), logged [VideoWriter (video_file now)] w).
Proof. done. Qed.

Lemma written_quiet evs tr : Forall quiet evs → written (tr ++ evs) = written tr.
Proof. intros Hq. by rewrite written_app, (quiet_written evs), app_nil_r. Qed.

(** With [shutdown_event] set, whatever a thread does next leaves the
    buffer, the baseline and the video as they are. *)
Lemma act_cancelled a f :
  shutdown_event (fine_world f) = true →
  shutdown_event (fine_world (act a f)) = true
  ∧ frame_buffer (fine_world (act a f)) = frame_buffer (fine_world f)
  ∧ previous_gray (fine_world (act a f)) = previous_gray (fine_world f)
  ∧ written (trace (fine_world (act a f))) = written (trace (fine_world f)).
Proof.
  intros Hs. destruct a as [opened|now|r|t1 t2 t3]; unfold act.
  - destruct (fine_capture f); [done|]. rewrite capture_start_eq.
    destruct opened; [done|].
    cbn [fine_world cancelled logged frame_buffer shutdown_event previous_gray trace].
    rewrite written_quiet; [done|]. by repeat constructor.
  - destruct (fine_processing f); [done|]. rewrite process_start_eq.
    cbn [fine_world logged frame_buffer shutdown_event previous_gray trace].
    by rewrite written_app, app_nil_r.
  - destruct (fine_capture f) as [[[]| |]|]; try done.
    rewrite capture_iteration_stop by done.
    cbn [fine_world frame_buffer shutdown_event previous_gray trace].
    rewrite written_quiet; [done|]. by repeat constructor.
  - destruct (fine_processing f) as [[l| |]|]; try done.
    rewrite process_iteration_stop by done.
    cbn [fine_world frame_buffer shutdown_event previous_gray trace].
    by rewrite written_app, app_nil_r.
Qed.

Lemma acts_cancelled l f :
  shutdown_event (fine_world f) = true →
  shutdown_event (fine_world (acts l f)) = true
  ∧ frame_buffer (fine_world (acts l f)) = frame_buffer (fine_world f)
  ∧ previous_gray (fine_world (acts l f)) = previous_gray (fine_world f)
  ∧ written (trace (fine_world (acts l f))) = written (trace (fine_world f)).
Proof.
  intros Hs. induction l as [|a l IH] using rev_ind; [done|].
  unfold acts in *. rewrite foldl_snoc. destruct IH as (IH1 & IH2 & IH3 & IH4).
  destruct (act_cancelled a (foldl (λ f a, act a f) f l) IH1) as (? & ? & ? & ?).
  repeat split; congruence.
Qed.

Lemma fine_step_cancelled e f :
  shutdown_event (fine_world f) = true →
  shutdown_event (fine_world (fine_step e f)) = true
  ∧ frame_buffer (fine_world (fine_step e f)) = frame_buffer (fine_world f)
  ∧ previous_gray (fine_world (fine_step e f)) = previous_gray (fine_world f)
  ∧ written (trace (fine_world (fine_step e f))) = written (trace (fine_world f)).
Proof.
  intros Hs. destruct e as [a|sig under_way k]; [by apply act_cancelled|].
  destruct (acts_cancelled under_way f Hs) as (? & ? & ? & ?).
  cbn [fine_step fine_world frame_buffer shutdown_event previous_gray trace].
  by rewrite written_with_notice.
Qed.

(** X6. Cancellation is final.  Once [shutdown_event] is set it is never
    cleared, and every pass that begins after it is set only ends its
    thread: whatever happens later, signals during passes and late thread
    starts included, no frame is enqueued, taken from the buffer or written
    to video and the baseline is not updated, so the frames still in the
    buffer are dropped.  A pass already under way when the signal arrives is
    not stopped: a frame the capture thread has read is still enqueued,
    though the flag is set by the time it is. *)
Theorem cancellation_is_final f after :
  shutdown_event (fine_world f) = true →
  (shutdown_event (fine_world (fine_run after f)) = true
   ∧ frame_buffer (fine_world (fine_run after f)) = frame_buffer (fine_world f)
   ∧ previous_gray (fine_world (fine_run after f)) = previous_gray (fine_world f)
   ∧ written (trace (fine_world (fine_run after f)))
     = written (trace (fine_world f)))
  ∧ (∀ f0 frame sig k,
       shutdown_event (fine_world f0) = false →
       fine_capture f0 = Some (Looping tt) →
       Queue.wf (frame_buffer (fine_world f0)) →
       shutdown_event
         (fine_world (fine_step (Signalled sig [Capture_pass (Some frame)] k) f0))
       = true
       ∧ frame_buffer
           (fine_world (fine_step (Signalled sig [Capture_pass (Some frame)] k) f0))
         = pushed frame (frame_buffer (fine_world f0))).
Proof.
  intros Hs. split.
  - induction after as [|e after IH] using rev_ind; [done|].
    rewrite fine_run_snoc. destruct IH as (IH1 & IH2 & IH3 & IH4).
    destruct (fine_step_cancelled e (fine_run after f) IH1) as (? & ? & ? & ?).
    repeat split; congruence.
  - intros f0 frame sig k Hs0 Hc Hwf. split; [done|].
    cbn [fine_step fine_world frame_buffer acts foldl]. unfold act. rewrite Hc.
    by rewrite capture_iteration_frame.
Qed.

Lemma actions_of_snoc events e :
  actions_of (events ++ [e]) = actions_of events ++ actions_of [e].
Proof. unfold actions_of. by rewrite bind_app. Qed.

Lemma dumps_quiet evs tr : Forall quiet evs → dumps (tr ++ evs) = dumps tr.
Proof. intros Hq. by rewrite dumps_app, (quiet_dumps evs), app_nil_r. Qed.

Lemma act_camera_absent a f :
  a ≠ Start_capture true → camera_absent_ok f → camera_absent_ok (act a f).
Proof.
  intros Ha Hf. pose proof Hf as (Hq & Hw & Hc & Hp).
  destruct a as [opened|now|r|t1 t2 t3]; unfold act.
  - destruct (fine_capture f) eqn:Hcap; [done|]. rewrite capture_start_eq.
    destruct opened; [done|]. unfold camera_absent_ok.
    cbn [fine_world fine_capture fine_processing cancelled logged frame_buffer
           shutdown_event trace].
    rewrite written_quiet, dumps_quiet by by repeat constructor.
    split; [done|]. split; [done|]. split; [by right|done].
  - destruct (fine_processing f) eqn:Hproc; [done|]. rewrite process_start_eq.
    unfold camera_absent_ok.
    cbn [fine_world fine_capture fine_processing logged frame_buffer
           shutdown_event trace].
    rewrite written_app, dumps_app, !app_nil_r.
    split; [done|]. split; [done|]. split; [done|]. split; [done|]. by exists now.
  - destruct Hc as [Hc|[Hc _]]; by rewrite Hc.
  - destruct (fine_processing f) as [[l| |]|] eqn:Hproc; try done.
    destruct Hp as [Hd [now ->]].
    destruct (shutdown_event (fine_world f)) eqn:Hs.
    + rewrite process_iteration_stop by done. unfold camera_absent_ok.
      cbn [fine_world fine_capture fine_processing frame_buffer shutdown_event trace].
      rewrite written_app, dumps_app, Hd, app_nil_r.
      split; [done|]. split; [done|]. split; [by rewrite ?Hs|]. by exists now.
    + rewrite process_iteration_idle; [|done|].
      * rewrite <- Hproc. by destruct f.
      * unfold Queue.empty, Queue.qsize. by rewrite Hq.
Qed.

Lemma acts_camera_absent l f :
  Start_capture true ∉ l → camera_absent_ok f → camera_absent_ok (acts l f).
Proof.
  intros Hl Hf. induction l as [|a l IH] using rev_ind; [done|].
  unfold acts in *. rewrite foldl_snoc.
  apply not_elem_of_app in Hl as [Hl Ha].
  apply act_camera_absent; [|by apply IH].
  intros ->. apply Ha, list_elem_of_here.
Qed.

Lemma fine_step_camera_absent e f :
  Start_capture true ∉ actions_of [e] →
  camera_absent_ok f → camera_absent_ok (fine_step e f).
Proof.
  intros He Hf. destruct e as [a|sig under_way k].
  - apply act_camera_absent; [|done]. intros ->. apply He. cbn. apply list_elem_of_here.
  - assert (camera_absent_ok (acts under_way f)) as (Hq & Hw & Hc & Hp).
    { apply acts_camera_absent; [|done]. intros Hin. apply He. cbn.
      by rewrite app_nil_r. }
    unfold camera_absent_ok.
    cbn [fine_step fine_world fine_capture fine_processing frame_buffer
           shutdown_event trace].
    rewrite written_with_notice, dumps_with_notice.
    split; [done|]. split; [done|]. split; [|done].
    destruct Hc as [Hc|[Hc _]]; [by left|by right].
Qed.

(** X8. If the camera cannot be opened, then however the two threads start
    and whenever signals arrive: nothing is ever captured, the buffer stays
    empty and no frame is written; the capture thread, once started, has set
    [shutdown_event] and returned; the passes the processing thread makes
    before the flag is set change nothing; its first pass after the flag is
    set writes the empty metadata file of the initial segment and returns;
    and no other file is ever written. *)
Theorem camera_failure_shuts_down events f :
  f = fine_run events power_on →
  Start_capture true ∉ actions_of events →
  camera_absent_ok f
  ∧ (∀ l t1 t2 t3,
       fine_processing f = Some (Looping l) →
       shutdown_event (fine_world f) = false →
       act (Process_pass t1 t2 t3) f = f)
  ∧ (∀ l t1 t2 t3,
       fine_processing f = Some (Looping l) →
       shutdown_event (fine_world f) = true →
       fine_processing (act (Process_pass t1 t2 t3) f) = Some Returned
       ∧ dumps (trace (fine_world (act (Process_pass t1 t2 t3) f)))
         = [(metadata_path l, [])]
       ∧ written (trace (fine_world (act (Process_pass t1 t2 t3) f))) = []).
Proof.
  intros -> Hev.
  assert (camera_absent_ok (fine_run events power_on)) as Hok.
  { induction events as [|e events IH] using rev_ind; [by repeat split; try left|].
    rewrite actions_of_snoc in Hev. apply not_elem_of_app in Hev as [Hev He].
    rewrite fine_run_snoc. by apply fine_step_camera_absent, IH. }
  split; [done|]. destruct Hok as (Hq & Hw & Hc & Hp). split.
  - intros l t1 t2 t3 Hl Hs. unfold act. rewrite Hl.
    rewrite process_iteration_idle; [|done|].
    + rewrite <- Hl. by destruct (fine_run events power_on).
    + unfold Queue.empty, Queue.qsize. by rewrite Hq.
  - intros l t1 t2 t3 Hl Hs. rewrite Hl in Hp. destruct Hp as [Hd [now ->]].
    unfold act. rewrite Hl. rewrite process_iteration_stop by done.
    cbn [fine_world fine_processing trace metadata_path metadata_list segment_at].
    by rewrite dumps_app, written_app, Hd, Hw.
Qed.

End FinerRuns.

(** ** The further theorems at concrete inputs *)

Lemma cancellation_is_final_witness :
  frame_buffer
    (fine_world
       (fine_run [Act (Capture_pass (Some (9 : Sim.F))); Act (Process_pass 0 0 0)]
          (fine_run [Act (Start_capture true); Act (Start_process 0);
                     Signalled 2 [Capture_pass (Some (1 : Sim.F))] 0]
             power_on)))
  = frame_buffer
      (fine_world
         (fine_run [Act (Start_capture true); Act (Start_process 0);
                    Signalled 2 [Capture_pass (Some (1 : Sim.F))] 0]
            power_on)).
Proof.
  exact (proj1 (proj2 (proj1
           (cancellation_is_final
              (fine_run [Act (Start_capture true); Act (Start_process 0);
                         Signalled 2 [Capture_pass (Some (1 : Sim.F))] 0]
                 power_on)
              [Act (Capture_pass (Some (9 : Sim.F))); Act (Process_pass 0 0 0)]
              eq_refl)))).
Defined.

Lemma camera_failure_shuts_down_witness :
  camera_absent_ok
    (fine_run [Act (Start_process 0); Act (Process_pass 5 5 5);
               Act (Start_capture false); Act (Process_pass 7 7 7)]
       (@power_on Sim.external)).
Proof.
  apply (camera_failure_shuts_down
           [Act (Start_process 0); Act (Process_pass 5 5 5);
            Act (Start_capture false); Act (Process_pass 7 7 7)]
           (fine_run [Act (Start_process 0); Act (Process_pass 5 5 5);
                      Act (Start_capture false); Act (Process_pass 7 7 7)]
              (@power_on Sim.external))).
  - reflexivity.
  - intros Hin. simpl in Hin.
    repeat (apply elem_of_cons in Hin as [Hin|Hin]; [discriminate Hin|]).
    by apply elem_of_nil in Hin.
Defined.

Lemma workers_return_after_cancellation_witness :
  capture (run [Capture None; Process 0 0 0] (run [Signal 15] Sim.start)) = Returned
  ∧ processing (run [Capture None; Process 0 0 0] (run [Signal 15] Sim.start))
    = Returned.
Proof.
  apply (workers_return_after_cancellation true 0 [Signal 15]
           [Capture None; Process 0 0 0] (run [Signal 15] Sim.start)).
  - reflexivity.
  - reflexivity.
  - exists None. apply list_elem_of_here.
  - exists 0, 0, 0. apply list_elem_of_further, list_elem_of_here.
Defined.

Lemma small_changes_are_not_motion_witness :
  fst (detect_motion (20 : Sim.F)
         (snd (detect_motion (10 : Sim.F) (world Sim.start)))) = false.
Proof.
  apply (small_changes_are_not_motion
           (snd (detect_motion (10 : Sim.F) (world Sim.start)))
           (20 : Sim.F) (filtered (10 : Sim.F))).
  - reflexivity.
  - intros i. unfold filtered. simpl.
    repeat (inv_fin i; [simpl; lia|intros i]). inv_fin i.
Defined.

Lemma small_frames_never_show_motion_witness :
  fst (detect_motion (200 : Sim.F)
         (snd (detect_motion (10 : Sim.F) (world Sim.start)))) = false.
Proof.
  apply (small_frames_never_show_motion
           (snd (detect_motion (10 : Sim.F) (world Sim.start))) (200 : Sim.F)).
  simpl. lia.
Defined.

Lemma rotation_on_time_within_a_day_witness :
  rotation_due (2 * HOUR) 0 = true ↔ HOUR ≤ 2 * HOUR - 0.
Proof.
  apply (rotation_on_time_within_a_day (2 * HOUR) 0).
  unfold DAY, HOUR, SECOND. lia.
Defined.

Lemma clock_set_back_rotates_witness : rotation_due (-1) 0 = true.
Proof.
  apply (clock_set_back_rotates (-1) 0). unfold DAY, HOUR, SECOND. lia.
Defined.

Lemma no_loss_below_capacity_witness :
  enqueue_all [1; 2] (Queue.mk 3 []) = Done (Queue.mk 3 [1; 2]).
Proof.
  apply (no_loss_below_capacity (Queue.mk 3 []) [1; 2]).
  intros _. simpl. lia.
Defined.
